(** * The retrieval-augmented indexing and query pipeline of [text_processor.py]

    A shallow embedding of the [TextProcessor] class: the write path
    ([process_nodes_and_store]), the read path ([search_similar]) and the
    answer path ([generate_answer_from_chunks], [search_and_answer]).

    The class talks to four collaborators that are not part of the
    repository: the LangChain text splitter, the embedding endpoint, the
    Pinecone index and the chat-completion endpoint, and it uses the [json]
    module.  They are gathered in the record [Env]; the remote ones are
    oracles that see the history of calls, so that any call may fail at any
    point of a run.  Every call is logged in the [trace] of the [World].

    Python raises; the model returns [inl e] and keeps the world the call
    had reached.  Node dictionaries are records with optional fields,
    metadata dictionaries are finite maps from strings to Python values,
    scores and embedding components are IEEE doubles, indices of [enumerate]
    are natural numbers.  Logging is left out.

    Beside the class the development covers its provisioning
    ([create_pinecone_index], [__init__]) over the control plane of the
    vector service, and the callers of the pipeline in the Streamlit pages:
    [test_extract_pdf], [process_query] and [ask_question] of [page3.py]
    over the HTTP requests they send, and [normalize_query] of
    [page4.py]. *)

From Stdlib Require Import Ascii String Floats.
From stdpp Require Import gmap strings list pretty.

(** ** Python values and exceptions *)

(** The values that occur in node dictionaries, Pinecone metadata and parsed
    JSON.  A [dict] built by a literal or by [json.loads] keeps its insertion
    order, hence the association list. *)
Unset Elimination Schemes.
Inductive pyval : Type :=
  | PNone
  | PBool (b : bool)
  | PInt (z : Z)
  | PFloat (f : float)
  | PStr (s : string)
  | PList (l : list pyval)
  | PDict (d : list (string * pyval)).
Set Elimination Schemes.

(** The exceptions the code can meet.  [RemoteError] stands for whatever a
    client library raises (the payload is the client's own message). *)
Inductive exn : Type :=
  | RemoteError (msg : string)
  | JSONDecodeError
  | KeyError (key : string)
  | TypeError
  | AttributeError.

(** The newline character, and the indentation the lines of the prompt
    have inside the triple-quoted f-string. *)
Definition nl : string := String (ascii_of_nat 10) "".
Definition prompt_indent : string := "            ".

(** [d.get(k, dflt)] on a dictionary kept as an association list. *)
Fixpoint assoc_get (d : list (string * pyval)) (k : string) (dflt : pyval) : pyval :=
  match d with
  | [] => dflt
  | (k', v) :: d' => if decide (k' = k) then v else assoc_get d' k dflt
  end.

(** [obj.get(k, dflt)]: only a [dict] has the method. *)
Definition py_get (obj : pyval) (k : string) (dflt : pyval) : exn + pyval :=
  match obj with
  | PDict d => inr (assoc_get d k dflt)
  | _ => inl AttributeError
  end.

(** [metadata.get(k, dflt)] and [metadata.get(k)] on a Pinecone metadata
    mapping. *)
Definition meta_get (md : gmap string pyval) (k : string) (dflt : pyval) : pyval :=
  default dflt (md !! k).

(** ** The data model *)

Inductive input_type : Type := Passage | Query.

(** A node as the extraction step hands it over: a dictionary whose keys
    ['content'], ['page_num'] and ['image_path'] may each be absent. *)
Record DocumentNode : Type := mkNode {
  node_content : option string;
  node_page_num : option Z;
  node_image_path : option string
}.

(** The triple [(vector_id, embedding, metadata)] appended to [vectors]. *)
Record VectorRecord : Type := mkVector {
  vec_id : string;
  vec_values : list float;
  vec_metadata : gmap string pyval
}.

(** One entry of [results.matches]. *)
Record Match : Type := mkMatch {
  match_score : float;
  match_metadata : gmap string pyval
}.

(** One dictionary of [formatted_results]. *)
Record SearchResult : Type := mkResult {
  res_score : float;
  res_pdf_id : pyval;
  res_chunk_index : pyval;
  res_page_num : pyval;
  res_image_path : pyval;
  res_content : pyval
}.

(** One element of [chunks] in [search_and_answer]. *)
Record ScoredChunk : Type := mkChunk {
  chunk_score : float;
  chunk_metadata : gmap string pyval
}.

(** The dictionary returned by [search_and_answer]. *)
Record Answer : Type := mkAnswer {
  ans_query : string;
  ans_answer : string;
  ans_supporting_chunks : list ScoredChunk;
  ans_total_chunks : nat
}.

(** The two kinds of object on which the code reads the attribute
    [matches]: the response of [index.query], which has it, and a plain
    Python list, which has not. *)
Inductive pyobj : Type :=
  | QueryResponse (matches : list Match)
  | ListObj (items : list SearchResult).

Definition getattr_matches (o : pyobj) : exn + list Match :=
  match o with
  | QueryResponse matches => inr matches
  | ListObj _ => inl AttributeError
  end.

(** ** Remote calls, the world and the environment *)

(** What a failed [index.upsert] leaves behind is backend-defined: the
    backend may have applied a prefix of the batch before failing. *)
Inductive upsert_reply : Type :=
  | Accepted
  | Rejected (e : exn) (applied : nat).

Inductive Event : Type :=
  | EvEmbed (text : string) (ty : input_type) (reply : exn + list float)
  | EvUpsert (vectors : list VectorRecord) (reply : upsert_reply)
  | EvSleep
  | EvQuery (vector : list float) (top_k : Z)
      (filter : option (gmap string pyval)) (reply : exn + list Match)
  | EvChat (prompt : string) (max_tokens : Z) (reply : exn + string).

Record World : Type := mkWorld {
  trace : list Event;                  (* calls made so far, oldest first *)
  index : gmap string VectorRecord     (* the records of the Pinecone index *)
}.

Record Env : Type := mkEnv {
  (* RecursiveCharacterTextSplitter(...).split_text *)
  split_text : string → list string;
  (* json.dumps / json.loads; [None] is JSONDecodeError *)
  json_dumps : pyval → string;
  json_loads : string → option pyval;
  (* how an f-string renders a value that is not a str *)
  py_format : pyval → string;
  (* embeddings_client.embeddings.create(...).data[0].embedding *)
  embeddings_create : list Event → string → input_type → exn + list float;
  (* index.upsert(vectors=...) *)
  index_upsert : list Event → list VectorRecord → upsert_reply;
  (* index.query(...).matches *)
  index_query : list Event → gmap string VectorRecord → list float → Z →
                option (gmap string pyval) → exn + list Match;
  (* embeddings_client.chat.completions.create(...).choices[0].message.content *)
  chat_completions_create : list Event → string → Z → exn + string
}.

(** ** A state-and-exception monad over the world *)

Definition M (A : Type) : Type := World → (exn + A) * World.

Definition ret {A} (a : A) : M A := λ w, (inr a, w).
Definition bind {A B} (m : M A) (k : A → M B) : M B :=
  λ w, match m w with
       | (inr a, w') => k a w'
       | (inl e, w') => (inl e, w')
       end.
Definition lift {A} (r : exn + A) : M A := λ w, (r, w).

Notation "x <~ m ; k" := (bind m (λ x, k))
  (at level 20, m at level 100, k at level 200, only parsing).
Notation "m ;; k" := (bind m (λ _, k))
  (at level 100, k at level 200, right associativity).

(** [try: body except Exception as e: logger.error(...); raise]: the handler
    logs and re-raises the exception it caught, unchanged. *)
Definition log_and_reraise {A} (body : M A) : M A :=
  λ w, match body w with
       | (inl e, w') => (inl e, w')
       | (inr a, w') => (inr a, w')
       end.

Definition log_event (ev : Event) (w : World) : World :=
  mkWorld (trace w ++ [ev]) (index w).

(** [index.upsert] writes or overwrites by id, record after record. *)
Definition store_batch (vectors : list VectorRecord)
    (idx : gmap string VectorRecord) : gmap string VectorRecord :=
  foldl (λ m r, <[vec_id r := r]> m) idx vectors.

Section TextProcessor.
Context (env : Env).

(** *** [chunk_text] *)
Definition chunk_text (text : string) : M (list string) :=
  log_and_reraise (ret (split_text env text)).

(** *** [create_embedding] *)
Definition create_embedding (text : string) (ty : input_type) : M (list float) :=
  log_and_reraise (λ w,
    let reply := embeddings_create env (trace w) text ty in
    (reply, log_event (EvEmbed text ty reply) w)).

Definition upsert (vectors : list VectorRecord) : M unit :=
  λ w,
    let reply := index_upsert env (trace w) vectors in
    let w' := log_event (EvUpsert vectors reply) w in
    match reply with
    | Accepted => (inr tt, mkWorld (trace w') (store_batch vectors (index w)))
    | Rejected e applied =>
        (inl e, mkWorld (trace w') (store_batch (take applied vectors) (index w)))
    end.

Definition sleep : M unit := λ w, (inr tt, log_event EvSleep w).

(** *** [process_nodes_and_store] *)

Definition node_info (page_num : option Z) (image_path : option string)
    (chunk : string) : pyval :=
  PDict [ ("page_num", match page_num with Some p => PInt p | None => PStr "" end);
          ("image_path", match image_path with Some p => PStr p | None => PStr "" end);
          ("content", PStr chunk) ].

Definition chunk_metadata_of (pdf_id : string) (node_idx chunk_idx : nat)
    (node_info_str : string) : gmap string pyval :=
  <["pdf_id" := PStr pdf_id]>
    (<["chunk_index" := PInt (Z.of_nat chunk_idx)]>
      (<["node_index" := PInt (Z.of_nat node_idx)]>
        (<["text" := PStr node_info_str]> ∅))).

(** [f"{pdf_id}_node{node_idx}_chunk{chunk_idx}"] *)
Definition vector_id (pdf_id : string) (node_idx chunk_idx : nat) : string :=
  pdf_id +:+ "_node" +:+ pretty node_idx +:+ "_chunk" +:+ pretty chunk_idx.

Definition batch_size : nat := 50.

(** The body of [for chunk_idx, chunk in enumerate(chunks)], the buffer
    [vectors] being threaded through. *)
Fixpoint chunk_loop (pdf_id : string) (node_idx : nat)
    (page_num : option Z) (image_path : option string)
    (chunk_idx : nat) (chunks : list string)
    (vectors : list VectorRecord) : M (list VectorRecord) :=
  match chunks with
  | [] => ret vectors
  | chunk :: rest =>
      embedding <~ create_embedding chunk Passage ;
      let node_info_str := json_dumps env (node_info page_num image_path chunk) in
      let metadata := chunk_metadata_of pdf_id node_idx chunk_idx node_info_str in
      let vectors := vectors ++ [mkVector (vector_id pdf_id node_idx chunk_idx) embedding metadata] in
      vectors <~ (if decide (batch_size ≤ length vectors)
                  then (upsert vectors ;; sleep ;; ret [])
                  else ret vectors) ;
      chunk_loop pdf_id node_idx page_num image_path (S chunk_idx) rest vectors
  end.

(** The body of [for node_idx, node in enumerate(nodes)].  The flush of the
    remaining vectors sits inside this loop and leaves [vectors] as it is. *)
Fixpoint node_loop (pdf_id : string) (node_idx : nat)
    (nodes : list DocumentNode)
    (vectors : list VectorRecord) : M (list VectorRecord) :=
  match nodes with
  | [] => ret vectors
  | node :: rest =>
      let content := default "" (node_content node) in
      let chunks := split_text env content in
      vectors <~ chunk_loop pdf_id node_idx (node_page_num node)
                   (node_image_path node) 0 chunks vectors ;
      (match vectors with
       | [] => ret tt
       | _ :: _ => upsert vectors
       end) ;;
      node_loop pdf_id (S node_idx) rest vectors
  end.

Definition process_nodes_and_store (nodes : list DocumentNode)
    (pdf_id : string) : M unit :=
  log_and_reraise (node_loop pdf_id 0 nodes [] ;; ret tt).

(** *** [search_similar] *)

Definition query_index (vector : list float) (top_k : Z)
    (filter : option (gmap string pyval)) : M pyobj :=
  λ w,
    let reply := index_query env (trace w) (index w) vector top_k filter in
    (match reply with inl e => inl e | inr ms => inr (QueryResponse ms) end,
     log_event (EvQuery vector top_k filter reply) w).

(** [json.loads(v)]: a [str] is parsed, anything else in the metadata is a
    TypeError. *)
Definition py_json_loads (v : pyval) : exn + pyval :=
  match v with
  | PStr s => match json_loads env s with
              | Some parsed => inr parsed
              | None => inl JSONDecodeError
              end
  | _ => inl TypeError
  end.

(** The body of the inner [try]. *)
Definition parse_match (m : Match) : exn + SearchResult :=
  let md := match_metadata m in
  match py_json_loads (meta_get md "text" (PStr "{}")) with
  | inl e => inl e
  | inr node_info =>
      match py_get node_info "page_num" (PStr "") with
      | inl e => inl e
      | inr page_num =>
          match py_get node_info "image_path" (PStr "") with
          | inl e => inl e
          | inr image_path =>
              match py_get node_info "content" (PStr "") with
              | inl e => inl e
              | inr content =>
                  inr (mkResult (match_score m) (meta_get md "pdf_id" PNone)
                         (meta_get md "chunk_index" PNone)
                         page_num image_path content)
              end
          end
      end
  end.

(** The dictionary appended by the handler. *)
Definition fallback_result (m : Match) : SearchResult :=
  let md := match_metadata m in
  mkResult (match_score m) (meta_get md "pdf_id" PNone)
    (meta_get md "chunk_index" PNone)
    (PStr "") (PStr "") (meta_get md "text" (PStr "")).

(** [try: ... except (json.JSONDecodeError, KeyError): ...]: every other
    exception leaves the loop. *)
Definition format_match (m : Match) : exn + SearchResult :=
  match parse_match m with
  | inr r => inr r
  | inl JSONDecodeError => inr (fallback_result m)
  | inl (KeyError _) => inr (fallback_result m)
  | inl e => inl e
  end.

Fixpoint format_results (matches : list Match)
    (formatted_results : list SearchResult) : exn + list SearchResult :=
  match matches with
  | [] => inr formatted_results
  | m :: rest =>
      match format_match m with
      | inl e => inl e
      | inr r => format_results rest (formatted_results ++ [r])
      end
  end.

Definition search_similar (query : string) (top_k : Z)
    (filter_condition : option (gmap string pyval)) : M (list SearchResult) :=
  log_and_reraise (
    query_embedding <~ create_embedding query Query ;
    results <~ query_index query_embedding top_k filter_condition ;
    matches <~ lift (getattr_matches results) ;
    lift (format_results matches [])).

(** *** [generate_answer_from_chunks] *)

(** [chunk['metadata']['text']] rendered inside the f-string. *)
Definition chunk_text_of (chunk : ScoredChunk) : exn + string :=
  match chunk_metadata chunk !! "text" with
  | None => inl (KeyError "text")
  | Some (PStr s) => inr s
  | Some v => inr (py_format env v)
  end.

(** The list comprehension [f"Chunk {i+1}:\n{...}" for i, chunk in
    enumerate(chunks)], [i] starting at the given value. *)
Fixpoint chunk_blocks (i : nat) (chunks : list ScoredChunk) : exn + list string :=
  match chunks with
  | [] => inr []
  | chunk :: rest =>
      match chunk_text_of chunk with
      | inl e => inl e
      | inr text =>
          match chunk_blocks (S i) rest with
          | inl e => inl e
          | inr blocks =>
              inr (("Chunk " +:+ pretty (i + 1) +:+ ":" +:+ nl +:+ text) :: blocks)
          end
      end
  end.

(** [sep.join(items)] *)
Fixpoint str_join (sep : string) (items : list string) : string :=
  match items with
  | [] => ""
  | [s] => s
  | s :: rest => s +:+ sep +:+ str_join sep rest
  end.

Definition build_prompt (query context : string) : string :=
  "Please provide a comprehensive answer to the following question using only the provided context. "
  +:+ nl +:+ prompt_indent
  +:+ "If the answer cannot be fully derived from the context, please say so."
  +:+ nl +:+ nl +:+ prompt_indent +:+ "Question: " +:+ query
  +:+ nl +:+ nl +:+ prompt_indent +:+ "Context:"
  +:+ nl +:+ prompt_indent +:+ context
  +:+ nl +:+ nl +:+ prompt_indent
  +:+ "Please provide a detailed answer and cite specific parts of the context where appropriate.".

Definition chat_completion (prompt : string) (max_tokens : Z) : M string :=
  λ w,
    let reply := chat_completions_create env (trace w) prompt max_tokens in
    (reply, log_event (EvChat prompt max_tokens reply) w).

Definition generate_answer_from_chunks (query : string)
    (chunks : list ScoredChunk) (max_tokens : Z) : M string :=
  log_and_reraise (
    blocks <~ lift (chunk_blocks 0 chunks) ;
    let context := str_join (nl +:+ nl) blocks in
    chat_completion (build_prompt query context) max_tokens).

(** *** [search_and_answer] *)

(** [search_results] is the list built by [search_similar]; the code then
    reads [search_results.matches]. *)
Definition search_and_answer (query : string) (top_k : Z) : M Answer :=
  log_and_reraise (
    search_results <~ search_similar query top_k None ;
    matches <~ lift (getattr_matches (ListObj search_results)) ;
    let chunks := (λ m, mkChunk (match_score m) (match_metadata m)) <$> matches in
    answer <~ generate_answer_from_chunks query chunks 1000 ;
    ret (mkAnswer query answer chunks (length chunks))).

End TextProcessor.

(** The decimal digits, the only characters [str(int)] produces for an index
    of [enumerate]. *)
Definition is_digit (c : ascii) : bool :=
  (48 <=? nat_of_ascii c) && (nat_of_ascii c <=? 57).

(** ** A small executable environment

    Stand-ins for the collaborators, used to run the model on concrete
    inputs: a splitter that cuts after every character, a printer and a
    parser for the JSON fragment without escapes, an embedder that fails on
    one text, an index that may reject its [n]-th upsert and answers every
    query with canned matches. *)
Module Demo.

Definition dquote : ascii := ascii_of_nat 34.
Definition quoted (s : string) : string :=
  String dquote s +:+ String dquote "".

Definition split_chars (s : string) : list string :=
  (λ c, String c "") <$> list_ascii_of_string s.

Fixpoint dumps (v : pyval) : string :=
  match v with
  | PNone => "null"
  | PBool true => "true"
  | PBool false => "false"
  | PInt z => pretty z
  | PFloat _ => "NaN"
  | PStr s => quoted s
  | PList l => "[" +:+ str_join ", " (dumps <$> l) +:+ "]"
  | PDict d =>
      "{" +:+ str_join ", "
                ((λ kv, quoted (fst kv) +:+ ": " +:+ dumps (snd kv)) <$> d)
          +:+ "}"
  end.

Definition is_space (c : ascii) : bool :=
  let n := nat_of_ascii c in
  (n =? 32) || (n =? 10) || (n =? 13) || (n =? 9).

Fixpoint skip_space (cs : list ascii) : list ascii :=
  match cs with
  | c :: rest => if is_space c then skip_space rest else cs
  | [] => []
  end.

(** The characters up to the closing quote. *)
Fixpoint read_string (cs : list ascii) : option (string * list ascii) :=
  match cs with
  | [] => None
  | c :: rest =>
      if decide (c = dquote) then Some ("", rest)
      else match read_string rest with
           | Some (s, rest') => Some (String c s, rest')
           | None => None
           end
  end.

Fixpoint read_digits (acc : Z) (cs : list ascii) : Z * list ascii :=
  match cs with
  | c :: rest =>
      if is_digit c
      then read_digits (10 * acc + Z.of_nat (nat_of_ascii c - 48)) rest
      else (acc, cs)
  | [] => (acc, [])
  end.

Definition expect (word : string) (v : pyval) (cs : list ascii)
    : option (pyval * list ascii) :=
  let w := list_ascii_of_string word in
  if decide (take (length w) cs = w) then Some (v, drop (length w) cs) else None.

Fixpoint parse_value (fuel : nat) (cs : list ascii) : option (pyval * list ascii) :=
  match fuel with
  | O => None
  | S fuel =>
      match skip_space cs with
      | [] => None
      | c :: rest =>
          if decide (c = dquote) then
            match read_string rest with
            | Some (s, rest') => Some (PStr s, rest')
            | None => None
            end
          else if decide (c = "[")%char then
            match skip_space rest with
            | "]"%char :: rest' => Some (PList [], rest')
            | _ => match parse_items fuel rest with
                   | Some (l, rest') => Some (PList l, rest')
                   | None => None
                   end
            end
          else if decide (c = "{")%char then
            match skip_space rest with
            | "}"%char :: rest' => Some (PDict [], rest')
            | _ => match parse_members fuel rest with
                   | Some (d, rest') => Some (PDict d, rest')
                   | None => None
                   end
            end
          else if decide (c = "-")%char then
            match rest with
            | d :: _ => if is_digit d
                        then let '(n, rest') := read_digits 0 rest in
                             Some (PInt (- n), rest')
                        else None
            | [] => None
            end
          else if is_digit c then
            let '(n, rest') := read_digits 0 (c :: rest) in Some (PInt n, rest')
          else if decide (c = "n")%char then expect "null" PNone (c :: rest)
          else if decide (c = "t")%char then expect "true" (PBool true) (c :: rest)
          else if decide (c = "f")%char then expect "false" (PBool false) (c :: rest)
          else None
      end
  end
with parse_items (fuel : nat) (cs : list ascii) : option (list pyval * list ascii) :=
  match fuel with
  | O => None
  | S fuel =>
      match parse_value fuel cs with
      | Some (v, rest) =>
          match skip_space rest with
          | ","%char :: rest' =>
              match parse_items fuel rest' with
              | Some (l, rest'') => Some (v :: l, rest'')
              | None => None
              end
          | "]"%char :: rest' => Some ([v], rest')
          | _ => None
          end
      | None => None
      end
  end
with parse_members (fuel : nat) (cs : list ascii)
    : option (list (string * pyval) * list ascii) :=
  match fuel with
  | O => None
  | S fuel =>
      match skip_space cs with
      | c :: rest =>
          if decide (c = dquote) then
            match read_string rest with
            | Some (k, rest1) =>
                match skip_space rest1 with
                | ":"%char :: rest2 =>
                    match parse_value fuel rest2 with
                    | Some (v, rest3) =>
                        match skip_space rest3 with
                        | ","%char :: rest4 =>
                            match parse_members fuel rest4 with
                            | Some (d, rest5) => Some ((k, v) :: d, rest5)
                            | None => None
                            end
                        | "}"%char :: rest4 => Some ([(k, v)], rest4)
                        | _ => None
                        end
                    | None => None
                    end
                | _ => None
                end
            | None => None
            end
          else None
      | [] => None
      end
  end.

(** The whole text must be one value. *)
Definition loads (s : string) : option pyval :=
  let cs := list_ascii_of_string s in
  match parse_value (S (length cs)) cs with
  | Some (v, rest) => match skip_space rest with [] => Some v | _ => None end
  | None => None
  end.

Definition unavailable : exn := RemoteError "503 Service Unavailable".

Definition upserts_so_far (tr : list Event) : nat :=
  length (List.filter (λ ev, match ev with EvUpsert _ _ => true | _ => false end) tr).

(** [bad_text]: the text on which the embedder fails; [reject_at]: the
    rank of the upsert call the index rejects, if any; [canned]: the
    matches the index holds ready for a query. *)
Definition env (bad_text : string) (reject_at : option nat)
    (canned : list Match) : Env :=
  {| split_text := split_chars;
     json_dumps := dumps;
     json_loads := loads;
     py_format := dumps;
     embeddings_create := λ _ text _,
       if decide (text = bad_text) then inl unavailable
       else inr [1%float];
     index_upsert := λ tr _,
       if decide (reject_at = Some (upserts_so_far tr))
       then Rejected unavailable 0 else Accepted;
     index_query := λ _ _ _ top_k _,
       if decide (top_k < 1)%Z then inl (RemoteError "top_k must be positive")
       else inr (take (Z.to_nat top_k) canned);
     chat_completions_create := λ _ _ _, inr "It is X." |}.

Definition empty_world : World := mkWorld [] ∅.

(** Concrete inputs. *)
Definition quiet : Env := env "!" None [].

Definition node_a : DocumentNode := mkNode (Some "a") (Some 1%Z) None.
Definition node_b : DocumentNode :=
  mkNode (Some "b") (Some 2%Z) (Some "img/p2.png").
Definition node_bang : DocumentNode := mkNode (Some "!") None None.
Definition node_without_content : DocumentNode := mkNode None (Some 3%Z) None.
Definition node_empty_content : DocumentNode := mkNode (Some "") None None.

Definition metadata_with (text : pyval) : gmap string pyval :=
  <["text" := text]> (<["pdf_id" := PStr "doc1"]> (<["chunk_index" := PInt 0]> ∅)).

Definition good_match : Match :=
  mkMatch 0.875 (metadata_with (PStr (dumps (node_info (Some 1%Z) None "a")))).
Definition malformed_match : Match := mkMatch 0.75 (metadata_with (PStr "{bad")).
Definition null_match : Match := mkMatch 0.5 (metadata_with (PStr "null")).

End Demo.

(** ** Specification-side vocabulary *)

(** Scores in non-increasing order, with Python's [>=] on floats. *)
Fixpoint nonincreasing (scores : list float) : bool :=
  match scores with
  | a :: (b :: _) as rest => PrimFloat.leb b a && nonincreasing rest
  | _ => true
  end.

(** The batches handed to [index.upsert] in a stretch of the trace. *)
Fixpoint upsert_batches (evs : list Event) : list (list VectorRecord) :=
  match evs with
  | [] => []
  | EvUpsert vectors _ :: rest => vectors :: upsert_batches rest
  | _ :: rest => upsert_batches rest
  end.

(** The texts sent to the embedding endpoint in a stretch of the trace. *)
Fixpoint embedded_texts (evs : list Event) : list string :=
  match evs with
  | [] => []
  | EvEmbed text _ _ :: rest => text :: embedded_texts rest
  | _ :: rest => embedded_texts rest
  end.

(** The exception a remote call ended with, if it did. *)
Definition event_error (ev : Event) : option exn :=
  match ev with
  | EvEmbed _ _ (inl e) => Some e
  | EvUpsert _ (Rejected e _) => Some e
  | EvQuery _ _ _ (inl e) => Some e
  | EvChat _ _ (inl e) => Some e
  | _ => None
  end.

(** JSON objects are the values [json.loads] turns into a [dict]. *)
Definition is_dict (v : pyval) : bool :=
  match v with PDict _ => true | _ => false end.

(** The number of upsert calls the batch rule promises for [R] records in
    batches of [B]. *)
Definition ceil_div (R B : nat) : nat := (R + B - 1) / B.

(** ** The write path: what a run has done so far *)

Section WriteSpec.
Context (env : Env) (pdf_id : string) (nodes : list DocumentNode).

(** The chunks of a node: [split_text(node.get('content', ''))]. *)
Definition chunks_of (node : DocumentNode) : list string :=
  split_text env (default "" (node_content node)).

(** [r] is a record the write path builds for chunk [c] of node [n]. *)
Definition made_at (n c : nat) (r : VectorRecord) : Prop :=
  ∃ node chunk,
    nodes !! n = Some node ∧ chunks_of node !! c = Some chunk ∧
    vec_id r = vector_id pdf_id n c ∧
    vec_metadata r =
      chunk_metadata_of pdf_id n c
        (json_dumps env (node_info (node_page_num node) (node_image_path node) chunk)).

(** The ids of the document: one per chunk of every node. *)
Definition is_site_id (id : string) : Prop :=
  ∃ n c node,
    nodes !! n = Some node ∧ c < length (chunks_of node) ∧
    id = vector_id pdf_id n c.

(** Positions of the two nested loops, in the order they are visited. *)
Definition site_lt (s1 s2 : nat * nat) : Prop :=
  s1.1 < s2.1 ∨ (s1.1 = s2.1 ∧ s1.2 < s2.2).

(** The records alive at a point of the run: the buffer and everything
    handed to the index in the events [evs] of the run. *)
Definition records_of (vectors : list VectorRecord) (evs : list Event)
    : list VectorRecord :=
  vectors ++ concat (upsert_batches evs).

(** The loop invariant at position [(n, c)], the run having started in
    [w0] and logged [evs] since. *)
Record inv (w0 : World) (n c : nat) (vectors : list VectorRecord)
    (w : World) (evs : list Event) : Prop := mkInv {
  inv_trace : trace w = trace w0 ++ evs;
  inv_ok : Forall (λ ev, event_error ev = None) evs;
  inv_made : ∀ r, r ∈ records_of vectors evs →
    ∃ n' c', site_lt (n', c') (n, c) ∧ made_at n' c' r;
  inv_functional : ∀ r1 r2,
    r1 ∈ records_of vectors evs → r2 ∈ records_of vectors evs →
    vec_id r1 = vec_id r2 → r1 = r2;
  inv_stored : ∀ r, r ∈ concat (upsert_batches evs) →
    index w !! vec_id r = Some r;
  inv_complete : ∀ n' c' node,
    site_lt (n', c') (n, c) → nodes !! n' = Some node →
    c' < length (chunks_of node) →
    ∃ r, r ∈ records_of vectors evs ∧ vec_id r = vector_id pdf_id n' c';
  inv_dom : ∀ id, id ∈ dom (index w) ↔
    id ∈ dom (index w0) ∨ id ∈ vec_id <$> concat (upsert_batches evs)
}.

(** What an aborted run leaves: the events [evs] all succeeded, then the
    call [bad] raised [e]. *)
Record aborted (w0 : World) (e : exn) (w' : World)
    (evs : list Event) (bad : Event) : Prop := mkAborted {
  ab_trace : trace w' = trace w0 ++ evs ++ [bad];
  ab_ok : Forall (λ ev, event_error ev = None) evs;
  ab_error : event_error bad = Some e;
  ab_made : ∀ r, r ∈ concat (upsert_batches (evs ++ [bad])) →
    ∃ n c, made_at n c r;
  ab_stored : ∀ r, r ∈ concat (upsert_batches evs) →
    index w' !! vec_id r = Some r;
  ab_dom : ∀ id, id ∈ dom (index w') →
    id ∈ dom (index w0) ∨ is_site_id id;
  ab_keep : ∀ id, id ∈ dom (index w0) → id ∈ dom (index w')
}.

End WriteSpec.

(** Runs a search on a closed input and passes the results and the final
    world on. *)
Ltac run_search call k :=
  let v := eval vm_compute in call in
  lazymatch v with
  | (inr ?rs, ?w) => k rs w
  end.

(** ** The write path seen from its trace *)

(** What one logged call does to the index. *)
Definition apply_event (idx : gmap string VectorRecord) (ev : Event)
    : gmap string VectorRecord :=
  match ev with
  | EvUpsert vectors Accepted => store_batch vectors idx
  | EvUpsert vectors (Rejected _ applied) => store_batch (take applied vectors) idx
  | _ => idx
  end.

Definition replay (evs : list Event) (idx : gmap string VectorRecord)
    : gmap string VectorRecord :=
  foldl apply_event idx evs.

(** Every accepted batch of [batch_size] records is followed at once by the
    [time.sleep], and no sleep stands anywhere else. *)
Fixpoint cooldown_ok (evs : list Event) : bool :=
  match evs with
  | [] => true
  | EvUpsert vectors Accepted :: rest =>
      if decide (length vectors = batch_size)
      then match rest with
           | EvSleep :: rest' => cooldown_ok rest'
           | _ => false
           end
      else cooldown_ok rest
  | EvSleep :: _ => false
  | _ :: rest => cooldown_ok rest
  end.

(** The calls the write path can make: passage embeddings, upserts, sleeps. *)
Definition write_event (ev : Event) : Prop :=
  match ev with
  | EvEmbed _ Passage _ | EvUpsert _ _ | EvSleep => True
  | _ => False
  end.

(** All chunks of a document, node after node. *)
Definition document_chunks (env : Env) (nodes : list DocumentNode) : list string :=
  concat (chunks_of env <$> nodes).

(** The ids of a document as a list: node after node, chunk after chunk. *)
Definition document_ids (env : Env) (pdf_id : string)
    (nodes : list DocumentNode) : list string :=
  concat (imap (λ n node,
                  vector_id pdf_id n <$> seq 0 (length (chunks_of env node)))
            nodes).

(** What holds of the events [evs] that lead from [w0] to [w], whatever the
    outcome. *)
Record write_facts (w0 w : World) (evs : list Event) : Prop := mkWriteFacts {
  wf_trace : trace w = trace w0 ++ evs;
  wf_index : index w = replay evs (index w0);
  wf_sizes : Forall (λ b, 0 < length b ≤ batch_size) (upsert_batches evs);
  wf_cooldown : cooldown_ok evs = true;
  wf_events : Forall write_event evs
}.

(** ** An environment in which every call succeeds

    The index accepts every upsert and answers a query with the records it
    holds, as matches of score 1; the completion endpoint echoes the
    prompt. *)
Module Steady.

Definition match_of (entry : string * VectorRecord) : Match :=
  mkMatch 1%float (vec_metadata entry.2).

Definition env : Env :=
  {| split_text := Demo.split_chars;
     json_dumps := Demo.dumps;
     json_loads := Demo.loads;
     py_format := Demo.dumps;
     embeddings_create := λ _ _ _, inr [1%float];
     index_upsert := λ _ _, Accepted;
     index_query := λ _ idx _ top_k _,
       inr (take (Z.to_nat top_k) (match_of <$> map_to_list idx));
     chat_completions_create := λ _ prompt _, inr prompt |}.

Definition node_abc : DocumentNode := mkNode (Some "abc") (Some 7%Z) None.

(** A world whose index already holds a record of another document. *)
Definition other_record : VectorRecord :=
  mkVector "other_node0_chunk0" [1%float] (chunk_metadata_of "other" 0 0 "{}").
Definition world_with_other : World :=
  mkWorld [] {[ "other_node0_chunk0" := other_record ]}.

End Steady.

(** ** The read path: which matches format *)

(** A match formats without raising when its ["text"] (or the default
    ["{}"] when the key is missing) is a string that either does not parse
    or parses to an object. *)
Definition formattable (env : Env) (m : Match) : bool :=
  match meta_get (match_metadata m) "text" (PStr "{}") with
  | PStr s => match json_loads env s with
              | None => true
              | Some v => is_dict v
              end
  | _ => false
  end.

(** The calls the read path can make: one query-mode embedding, one index
    query. *)
Definition read_event (ev : Event) : Prop :=
  match ev with
  | EvEmbed _ Query _ | EvQuery _ _ _ _ => True
  | _ => False
  end.


(** ** Provisioning: [create_pinecone_index] and [__init__]

    The control plane of the vector service keeps the names of the indexes
    that exist.  Its calls may fail at any point; a successful
    [create_index] adds the name, a failed one leaves the names as they
    were. *)

Inductive ControlEvent : Type :=
  | EvClients (reply : option exn)
  | EvListIndexes (reply : exn + list string)
  | EvCreateIndex (name : string) (dimension : Z) (metric : string)
      (environment pod_type : string) (reply : option exn)
  | EvGetIndex (name : string) (reply : option exn).

Record Control : Type := mkControl {
  control_trace : list ControlEvent;
  index_names : list string
}.

Record ControlEnv : Type := mkControlEnv {
  (* OpenAI(...) and Pinecone(...): the constructors may refuse, for
     instance for want of an API key *)
  clients_error : list ControlEvent → option exn;
  (* pc.list_indexes().names() *)
  list_indexes_error : list ControlEvent → option exn;
  (* pc.create_index(...) *)
  create_index_error : list ControlEvent → string → option exn;
  (* pc.Index(name) *)
  get_index_error : list ControlEvent → string → option exn
}.

(** The attributes [__init__] sets besides the clients. *)
Record TextProcessorConfig : Type := mkConfig {
  cfg_index_name : string;
  cfg_chunk_size : nat;
  cfg_chunk_overlap : nat;
  cfg_separators : list string
}.

Definition log_control (ev : ControlEvent) (c : Control) : Control :=
  mkControl (control_trace c ++ [ev]) (index_names c).

Definition is_create (ev : ControlEvent) : bool :=
  match ev with EvCreateIndex _ _ _ _ _ _ => true | _ => false end.

(** The exception a logged control-plane call raised, if it raised. *)
Definition control_error (ev : ControlEvent) : option exn :=
  match ev with
  | EvClients reply => reply
  | EvListIndexes (inl e) => Some e
  | EvListIndexes (inr _) => None
  | EvCreateIndex _ _ _ _ _ reply => reply
  | EvGetIndex _ reply => reply
  end.

Definition is_get_index (ev : ControlEvent) : bool :=
  match ev with EvGetIndex _ _ => true | _ => false end.

(** A call that succeeded and is not the request for the index handle. *)
Definition quiet_step (ev : ControlEvent) : Prop :=
  control_error ev = None ∧ is_get_index ev = false.

Section Provisioning.
Context (cenv : ControlEnv).

(** [create_pinecone_index], for [self.index_name = index_name]. *)
Definition create_pinecone_index (index_name : string)
    : Control → (exn + unit) * Control :=
  λ c,
    match list_indexes_error cenv (control_trace c) with
    | Some e => (inl e, log_control (EvListIndexes (inl e)) c)
    | None =>
        let existing_indexes := index_names c in
        let c1 := log_control (EvListIndexes (inr existing_indexes)) c in
        if decide (index_name ∈ existing_indexes) then (inr tt, c1)
        else
          match create_index_error cenv (control_trace c1) index_name with
          | Some e =>
              (inl e,
               log_control (EvCreateIndex index_name 1024 "cosine"
                              "gcp-starter" "starter" (Some e)) c1)
          | None =>
              (inr tt,
               mkControl
                 (control_trace c1 ++
                  [EvCreateIndex index_name 1024 "cosine"
                     "gcp-starter" "starter" None])
                 (index_names c1 ++ [index_name]))
          end
    end.

(** [__init__]: the clients, the index name, the provisioning, the index
    handle, the text splitter. *)
Definition init : Control → (exn + TextProcessorConfig) * Control :=
  λ c,
    match clients_error cenv (control_trace c) with
    | Some e => (inl e, log_control (EvClients (Some e)) c)
    | None =>
        let c1 := log_control (EvClients None) c in
        let index_name := "pdf-embeddings" in
        match create_pinecone_index index_name c1 with
        | (inl e, c2) => (inl e, c2)
        | (inr _, c2) =>
            match get_index_error cenv (control_trace c2) index_name with
            | Some e => (inl e, log_control (EvGetIndex index_name (Some e)) c2)
            | None =>
                (inr (mkConfig index_name 1000 50
                        [nl +:+ nl; nl; ". "; " "; ""]),
                 log_control (EvGetIndex index_name None) c2)
            end
        end
    end.

End Provisioning.

(** A control plane that never fails, for concrete runs. *)
Definition calm : ControlEnv :=
  {| clients_error := λ _, None;
     list_indexes_error := λ _, None;
     create_index_error := λ _ _, None;
     get_index_error := λ _ _, None |}.

(** A control plane whose [create_index] always fails. *)
Definition no_quota : ControlEnv :=
  {| clients_error := λ _, None;
     list_indexes_error := λ _, None;
     create_index_error := λ _ _, Some (RemoteError "quota exceeded");
     get_index_error := λ _ _, None |}.

(** ** The question page: [test_extract_pdf], [process_query], [ask_question]

    The page of [page3.py] reaches the pipeline over HTTP.  A request either
    fails to get a response ([requests.post] raises) or gets a response
    with a status code, a body and, where the body is JSON, its value
    ([None]: [response.json()] raises).  What [st.error] shows is kept as a
    structured notice in place of the rendered message. *)

Inductive HttpReply : Type :=
  | NoResponse (e : exn)
  | Response (status_code : Z) (text : string) (json : option pyval).

Inductive HttpEvent : Type :=
  | EvPost (url : string) (json : option pyval) (reply : HttpReply).

Inductive Notice : Type :=
  | ExtractionFailed (detail : pyval)
  | ExtractionStatus (status_code : Z)
  | ExtractionError (e : exn)
  | QueryFailed (text : string)
  | QueryError (e : exn).

(** [st.session_state.extracted_status], the requests sent so far and the
    errors shown so far. *)
Record Page : Type := mkPage {
  extracted_status : gmap string bool;
  posts : list HttpEvent;
  notices : list Notice
}.

Record PageEnv : Type := mkPageEnv {
  FASTAPI_URL : string;
  (* urllib.parse.quote *)
  quote : string → string;
  (* requests.post(url, json=...) *)
  requests_post : list HttpEvent → string → option pyval → HttpReply
}.

Definition log_post (ev : HttpEvent) (p : Page) : Page :=
  mkPage (extracted_status p) (posts p ++ [ev]) (notices p).

Definition st_error (n : Notice) (p : Page) : Page :=
  mkPage (extracted_status p) (posts p) (notices p ++ [n]).

Definition mark_extracted (folder_name : string) (p : Page) : Page :=
  mkPage (<[folder_name := true]> (extracted_status p)) (posts p) (notices p).

(** [value == "success"] *)
Definition is_success (v : pyval) : bool :=
  match v with
  | PStr s => bool_decide (s = "success")
  | _ => false
  end.

Section QuestionPage.
Context (penv : PageEnv).

Definition extract_url (folder_name : string) : string :=
  FASTAPI_URL penv +:+ "/pdfs/" +:+ quote penv folder_name +:+ "/test-extract".

Definition search_url (folder_name : string) : string :=
  FASTAPI_URL penv +:+ "/pdfs/" +:+ quote penv folder_name
    +:+ "/search-and-process".

Definition search_body (query folder_name : string) (top_k : Z) : pyval :=
  PDict [("query", PStr query); ("top_k", PInt top_k);
         ("pdf_id", PStr folder_name)].

(** [test_extract_pdf] *)
Definition test_extract_pdf (folder_name : string) : Page → bool * Page :=
  λ p,
    let url := extract_url folder_name in
    let response := requests_post penv (posts p) url None in
    let p1 := log_post (EvPost url None response) p in
    match response with
    | NoResponse e => (false, st_error (ExtractionError e) p1)
    | Response status_code _ json =>
        if decide (status_code = 200%Z) then
          match json with
          | None => (false, st_error (ExtractionError JSONDecodeError) p1)
          | Some result =>
              match py_get result "status" PNone with
              | inl e => (false, st_error (ExtractionError e) p1)
              | inr status =>
                  if is_success status then
                    (true, mark_extracted folder_name p1)
                  else
                    match py_get result "detail" (PStr "Unknown error") with
                    | inl e => (false, st_error (ExtractionError e) p1)
                    | inr detail => (false, st_error (ExtractionFailed detail) p1)
                    end
              end
          end
        else (false, st_error (ExtractionStatus status_code) p1)
    end.

(** [process_query]; Python's [None] is [PNone]. *)
Definition process_query (query folder_name : string) (top_k : Z)
    : Page → pyval * Page :=
  λ p,
    let url := search_url folder_name in
    let body := search_body query folder_name top_k in
    let response := requests_post penv (posts p) url (Some body) in
    let p1 := log_post (EvPost url (Some body) response) p in
    match response with
    | NoResponse e => (PNone, st_error (QueryError e) p1)
    | Response status_code text json =>
        if decide (status_code = 200%Z) then
          match json with
          | None => (PNone, st_error (QueryError JSONDecodeError) p1)
          | Some result => (result, p1)
          end
        else (PNone, st_error (QueryFailed text) p1)
    end.

(** [ask_question] *)
Definition ask_question (query folder_name : string) (top_k : Z)
    : Page → pyval * Page :=
  λ p,
    if negb (default false (extracted_status p !! folder_name)) then
      match test_extract_pdf folder_name p with
      | (false, p1) => (PNone, p1)
      | (true, p1) => process_query query folder_name top_k p1
      end
    else process_query query folder_name top_k p.

End QuestionPage.

(** A server for concrete runs: extraction succeeds, and a search answers
    with the query it was sent. *)
Definition helpful_post (tr : list HttpEvent) (url : string)
    (json : option pyval) : HttpReply :=
  match json with
  | None => Response 200 "" (Some (PDict [("status", PStr "success")]))
  | Some body =>
      Response 200 ""
        (Some (PDict [("status", PStr "success");
                      ("query", assoc_get
                                  match body with PDict d => d | _ => [] end
                                  "query" PNone)]))
  end.

Definition helpful : PageEnv := mkPageEnv "http://fastapi-app:8000" id helpful_post.

(** A server that is down. *)
Definition down : PageEnv :=
  mkPageEnv "http://fastapi-app:8000" id
    (λ _ _ _, NoResponse (RemoteError "connection refused")).

Definition fresh_page : Page := mkPage ∅ [] [].

(** ** The notes page: [normalize_query]

    Strings are sequences of code points below 256.  [py_isspace] is
    [str.isspace] there; [py_split] is [str.split()] without arguments: the
    maximal runs of characters that are not whitespace, in order. *)

Definition py_isspace (c : ascii) : bool :=
  let n := nat_of_ascii c in
  ((9 <=? n) && (n <=? 13)) || ((28 <=? n) && (n <=? 32))
  || (n =? 133) || (n =? 160).

(** Whether a word ends before [s]: at the end of the string or at
    whitespace. *)
Definition word_ends (s : string) : bool :=
  match s with
  | EmptyString => true
  | String c _ => py_isspace c
  end.

Fixpoint py_split (s : string) : list string :=
  match s with
  | EmptyString => []
  | String c rest =>
      if py_isspace c then py_split rest
      else if word_ends rest then String c "" :: py_split rest
      else
        match py_split rest with
        | word :: words => String c word :: words
        | [] => [String c ""]
        end
  end.

(** [normalize_query] *)
Definition normalize_query (query : string) : string :=
  str_join " " (py_split query).

(** A word: not empty and free of whitespace. *)
Fixpoint no_space (s : string) : bool :=
  match s with
  | EmptyString => true
  | String c rest => negb (py_isspace c) && no_space rest
  end.

Definition is_word (s : string) : bool :=
  match s with
  | EmptyString => false
  | String _ _ => no_space s
  end.




(** * The read path *)

Section ReadPath.
Context (env : Env).

Lemma search_similar_unfold query top_k filter w :
  search_similar env query top_k filter w =
    let r1 := embeddings_create env (trace w) query Query in
    let w1 := log_event (EvEmbed query Query r1) w in
    match r1 with
    | inl e => (inl e, w1)
    | inr emb =>
        let r2 := index_query env (trace w1) (index w1) emb top_k filter in
        let w2 := log_event (EvQuery emb top_k filter r2) w1 in
        match r2 with
        | inl e => (inl e, w2)
        | inr ms => (format_results env ms [], w2)
        end
    end.
Proof.
  unfold search_similar, log_and_reraise, bind, create_embedding,
    log_and_reraise, query_index, lift; simpl.
  destruct (embeddings_create env (trace w) query Query) as [e|emb]; [done|].
  destruct (index_query env _ _ emb top_k filter) as [e|ms]; simpl; [done|].
  by destruct (format_results env ms []).
Qed.

(** The loop formats the matches one by one, in their order, and stops at
    the first one that raises. *)
Lemma format_results_inr ms acc res :
  format_results env ms acc = inr res →
  ∃ rs, res = acc ++ rs ∧ Forall2 (λ m r, format_match env m = inr r) ms rs.
Proof.
  revert acc. induction ms as [|m ms IH]; intros acc; simpl.
  - intros [= <-]. exists []. by rewrite app_nil_r.
  - destruct (format_match env m) as [e|r] eqn:Hm; [done|].
    intros (rs & -> & Hrs)%IH. exists (r :: rs).
    rewrite <-app_assoc. split; [done|]. by constructor.
Qed.

Lemma format_results_inl ms acc e :
  format_results env ms acc = inl e →
  ∃ m, m ∈ ms ∧ format_match env m = inl e.
Proof.
  revert acc. induction ms as [|m ms IH]; intros acc; simpl; [done|].
  destruct (format_match env m) as [e'|r] eqn:Hm.
  - intros [= <-]. exists m. split; [left|done].
  - intros (m' & ? & ?)%IH. exists m'. split; [by right|done].
Qed.

Lemma format_results_raises ms acc m e :
  m ∈ ms → format_match env m = inl e →
  ∃ e', format_results env ms acc = inl e'.
Proof.
  intros Hin Hm. revert acc.
  induction ms as [|m' ms IH]; intros acc; [by apply elem_of_nil in Hin|].
  simpl. destruct (format_match env m') as [e'|r] eqn:Hm'; [by eexists|].
  apply elem_of_cons in Hin as [->|Hin]; [congruence|]. by apply IH.
Qed.

(** What a successful call has done: one embedding, one query, and every
    match formatted. *)
Lemma search_similar_inr query top_k filter w results w' :
  search_similar env query top_k filter w = (inr results, w') →
  ∃ emb ms,
    trace w' = trace w ++ [EvEmbed query Query (inr emb);
                           EvQuery emb top_k filter (inr ms)] ∧
    index w' = index w ∧
    index_query env (trace w ++ [EvEmbed query Query (inr emb)]) (index w)
      emb top_k filter = inr ms ∧
    Forall2 (λ m r, format_match env m = inr r) ms results.
Proof.
  rewrite search_similar_unfold; simpl.
  destruct (embeddings_create env (trace w) query Query) as [e|emb]; [done|].
  destruct (index_query env _ _ emb top_k filter) as [e|ms] eqn:Hq; [done|].
  intros [= Hres <-]. exists emb, ms. simpl.
  apply format_results_inr in Hres as (rs & -> & Hrs).
  by rewrite <-app_assoc.
Qed.

(** A formatted result keeps the score and the routing metadata of its
    match, on either branch. *)
Lemma format_match_routing m r :
  format_match env m = inr r →
  res_score r = match_score m ∧
  res_pdf_id r = meta_get (match_metadata m) "pdf_id" PNone ∧
  res_chunk_index r = meta_get (match_metadata m) "chunk_index" PNone.
Proof.
  unfold format_match, parse_match.
  destruct (py_json_loads env _) as [e|node_info].
  { destruct e; intros [= <-]; done. }
  destruct (py_get node_info "page_num" _) as [e|?].
  { destruct e; intros [= <-]; done. }
  destruct (py_get node_info "image_path" _) as [e|?].
  { destruct e; intros [= <-]; done. }
  destruct (py_get node_info "content" _) as [e|?].
  { destruct e; intros [= <-]; done. }
  by intros [= <-].
Qed.

(** A match whose ["text"] is a string that does not parse takes the
    handler. *)
Lemma format_match_malformed m s :
  match_metadata m !! "text" = Some (PStr s) →
  json_loads env s = None →
  format_match env m = inr (fallback_result m).
Proof.
  intros Htext Hbad. unfold format_match, parse_match, meta_get.
  rewrite Htext; simpl. by rewrite Hbad.
Qed.

(** A match whose ["text"] parses to something that is not a dictionary
    leaves the loop with an AttributeError. *)
Lemma format_match_not_object m s v :
  match_metadata m !! "text" = Some (PStr s) →
  json_loads env s = Some v →
  is_dict v = false →
  format_match env m = inl AttributeError.
Proof.
  intros Htext Hv Hnd. unfold format_match, parse_match, meta_get.
  rewrite Htext; simpl. rewrite Hv. by destruct v.
Qed.

(** The only exceptions the loop lets through. *)
Lemma format_match_inl m e :
  format_match env m = inl e → e = AttributeError ∨ e = TypeError.
Proof.
  unfold format_match, parse_match, py_json_loads.
  destruct (meta_get _ "text" _) as [| | | |s| |]; simpl;
    try (intros [= <-]; by right).
  destruct (json_loads env s) as [v|]; [|done].
  destruct v; simpl; try (intros [= <-]; by left); done.
Qed.

End ReadPath.

(** * The read path: the claims *)

(** C1 ([search_and_answer]).  The answer operation never returns an Answer
    record: [search_similar] hands back a plain list, and reading
    [search_results.matches] on it raises AttributeError.  Either the search
    raised, and that exception is re-raised, or the search succeeded and the
    call ends with AttributeError in the world the search left, before any
    completion is requested. *)
Theorem search_and_answer_raises (env : Env) (query : string) (top_k : Z) (w : World) :
  search_and_answer env query top_k w =
    match search_similar env query top_k None w with
    | (inl e, w') => (inl e, w')
    | (inr _, w') => (inl AttributeError, w')
    end.
Proof.
  unfold search_and_answer, log_and_reraise, bind, lift.
  by destruct (search_similar env query top_k None w) as [[e|results] w'].
Qed.

(** The answer call on a concrete question, every remote call succeeding. *)
Example search_and_answer_demo :
  (search_and_answer (Demo.env "!" None [Demo.good_match]) "what is X?" 5
     Demo.empty_world).1 = inl AttributeError.
Proof. vm_compute. reflexivity. Qed.

(** C3 (graceful metadata fallback).  When [search_similar] returns, a match
    of the store whose metadata ["text"] is a string that is not JSON has its
    result at the same position: the score, pdf_id and chunk_index of the
    match, empty page_num and image_path, and the raw text as content.  Such
    a match never makes the formatting raise. *)
Theorem malformed_metadata_falls_back (env : Env) (query : string) (top_k : Z)
    (filter : option (gmap string pyval)) (w w' : World)
    (results : list SearchResult) (emb : list float) (ms : list Match)
    (i : nat) (m : Match) (s : string) :
  search_similar env query top_k filter w = (inr results, w') →
  last (trace w') = Some (EvQuery emb top_k filter (inr ms)) →
  ms !! i = Some m →
  match_metadata m !! "text" = Some (PStr s) →
  json_loads env s = None →
  let fallback :=
    mkResult (match_score m)
      (meta_get (match_metadata m) "pdf_id" PNone)
      (meta_get (match_metadata m) "chunk_index" PNone)
      (PStr "") (PStr "") (PStr s) in
  format_match env m = inr fallback ∧ results !! i = Some fallback.
Proof.
  intros Hrun Hlast Hi Htext Hbad fallback.
  assert (format_match env m = inr fallback) as Hm.
  { rewrite (format_match_malformed env m s Htext Hbad).
    unfold fallback_result, fallback, meta_get. by rewrite Htext. }
  split; [done|].
  apply search_similar_inr in Hrun as (emb' & ms' & Htr & _ & _ & Hall).
  rewrite Htr, last_app_cons in Hlast. simpl in Hlast. simplify_eq.
  destruct (Forall2_lookup_l _ _ _ _ _ Hall Hi) as (r & Hr & Hfm).
  congruence.
Qed.

(** C7 (top-k bound).  If the store answers a query for [top_k] with at most
    [top_k] matches in non-increasing score order, then what [search_similar]
    returns has at most [top_k] results, in non-increasing score order, and
    its i-th result carries the score, pdf_id and chunk_index of the i-th
    match of the store. *)
Theorem search_similar_top_k (env : Env) (query : string) (top_k : Z)
    (filter : option (gmap string pyval)) (w w' : World)
    (results : list SearchResult) :
  (∀ tr idx v ms, index_query env tr idx v top_k filter = inr ms →
     (Z.of_nat (length ms) ≤ top_k)%Z ∧
     nonincreasing (match_score <$> ms) = true) →
  search_similar env query top_k filter w = (inr results, w') →
  (Z.of_nat (length results) ≤ top_k)%Z ∧
  nonincreasing (res_score <$> results) = true ∧
  ∃ emb ms,
    last (trace w') = Some (EvQuery emb top_k filter (inr ms)) ∧
    Forall2 (λ m r, res_score r = match_score m ∧
                    res_pdf_id r = meta_get (match_metadata m) "pdf_id" PNone ∧
                    res_chunk_index r = meta_get (match_metadata m) "chunk_index" PNone)
      ms results.
Proof.
  intros Hstore (emb & ms & Htr & _ & Hq & Hall)%search_similar_inr.
  destruct (Hstore _ _ _ _ Hq) as [Hlen Hsorted].
  assert (Forall2 (λ m r, res_score r = match_score m ∧
                    res_pdf_id r = meta_get (match_metadata m) "pdf_id" PNone ∧
                    res_chunk_index r = meta_get (match_metadata m) "chunk_index" PNone)
            ms results) as Hkeep.
  { eapply Forall2_impl; [exact Hall|]. intros m r. apply format_match_routing. }
  assert (res_score <$> results = match_score <$> ms) as Hscores.
  { clear -Hkeep. induction Hkeep as [|m r ms rs (Hs & _) _ IH]; [done|].
    rewrite !fmap_cons. by f_equal. }
  split; [by rewrite <-(Forall2_length _ _ _ Hall)|].
  split; [by rewrite Hscores|].
  exists emb, ms. split; [|done].
  by rewrite Htr, last_app_cons.
Qed.

(** C9 (non-object metadata).  The handler of [search_similar] catches
    JSONDecodeError and KeyError only.  A match whose ["text"] parses as JSON
    that is not an object raises AttributeError out of the loop, so a search
    whose store reply holds such a match raises and returns no result at
    all. *)
Theorem non_object_metadata_fails_search (env : Env) (query : string) (top_k : Z)
    (filter : option (gmap string pyval)) (w : World)
    (emb : list float) (ms : list Match) (m : Match) (s : string) (v : pyval) :
  embeddings_create env (trace w) query Query = inr emb →
  index_query env (trace w ++ [EvEmbed query Query (inr emb)]) (index w)
    emb top_k filter = inr ms →
  m ∈ ms →
  match_metadata m !! "text" = Some (PStr s) →
  json_loads env s = Some v →
  is_dict v = false →
  format_match env m = inl AttributeError ∧
  ∃ e, (search_similar env query top_k filter w).1 = inl e ∧
       (e = AttributeError ∨ e = TypeError).
Proof.
  intros Hemb Hq Hin Htext Hv Hnd.
  pose proof (format_match_not_object env m s v Htext Hv Hnd) as Hm.
  split; [done|].
  rewrite search_similar_unfold; simpl. rewrite Hemb. simpl. rewrite Hq.
  destruct (format_results_raises env ms [] m _ Hin Hm) as [e He].
  exists e. rewrite He. split; [done|].
  apply format_results_inl in He as (m' & _ & Hm').
  by apply format_match_inl in Hm'.
Qed.

(** * The vector ids *)

Section VectorId.

Lemma chars_app (s1 s2 : string) :
  list_ascii_of_string (s1 +:+ s2) =
  list_ascii_of_string s1 ++ list_ascii_of_string s2.
Proof. induction s1 as [|a s1 IH]; simpl; [done|]. by rewrite IH. Qed.

Lemma chars_inj (s1 s2 : string) :
  list_ascii_of_string s1 = list_ascii_of_string s2 → s1 = s2.
Proof.
  intros H. rewrite <-(string_of_list_ascii_of_string s1),
    <-(string_of_list_ascii_of_string s2). by rewrite H.
Qed.

Lemma pretty_N_char_digit (x : N) : is_digit (pretty_N_char x) = true.
Proof. unfold pretty_N_char. by repeat case_match. Qed.

Lemma pretty_N_go_digits (x : N) (s : string) :
  Forall (λ c, is_digit c = true) (list_ascii_of_string s) →
  Forall (λ c, is_digit c = true) (list_ascii_of_string (pretty_N_go x s)).
Proof.
  revert s. induction (N.lt_wf_0 x) as [x _ IH]; intros s Hs.
  destruct (decide (x = 0)%N) as [->|Hx]; [by rewrite pretty_N_go_0|].
  rewrite pretty_N_go_step by lia.
  apply IH; [apply N.div_lt; lia|].
  simpl. constructor; [apply pretty_N_char_digit|done].
Qed.

Lemma pretty_nat_digits (n : nat) :
  Forall (λ c, is_digit c = true) (list_ascii_of_string (pretty n)).
Proof.
  unfold pretty, pretty_nat, pretty, pretty_N.
  case_decide; [by repeat constructor|].
  apply pretty_N_go_digits. constructor.
Qed.

(** Reading from the left: a run of digits closed by a non-digit is
    determined by the whole text. *)
Lemma digit_run_unique (d1 d2 t1 t2 : list ascii) (x y : ascii) :
  Forall (λ c, is_digit c = true) d1 →
  Forall (λ c, is_digit c = true) d2 →
  is_digit x = false → is_digit y = false →
  d1 ++ x :: t1 = d2 ++ y :: t2 →
  d1 = d2 ∧ x = y ∧ t1 = t2.
Proof.
  intros Hd1. revert d2.
  induction Hd1 as [|a d1 Ha _ IH]; intros d2 Hd2 Hx Hy; simpl.
  - destruct Hd2 as [|b d2 Hb _]; simpl; intros [= -> ->]; [done|congruence].
  - destruct Hd2 as [|b d2 Hb Hd2]; simpl; intros [= -> Heq]; [congruence|].
    destruct (IH d2 Hd2 Hx Hy Heq) as (-> & -> & ->). done.
Qed.

(** Reading from the right: the same for a trailing run of digits. *)
Lemma digit_tail_unique (l1 l2 d1 d2 : list ascii) (x y : ascii) :
  Forall (λ c, is_digit c = true) d1 →
  Forall (λ c, is_digit c = true) d2 →
  is_digit x = false → is_digit y = false →
  l1 ++ x :: d1 = l2 ++ y :: d2 →
  l1 = l2 ∧ x = y ∧ d1 = d2.
Proof.
  intros Hd1 Hd2 Hx Hy Heq.
  apply (f_equal reverse) in Heq.
  rewrite !reverse_app, !reverse_cons, <-!app_assoc in Heq. simpl in Heq.
  apply digit_run_unique in Heq as (Hd & -> & Hl);
    [|by apply Forall_reverse..|done|done].
  split; [|split; [done|]].
  - by apply (inj reverse).
  - by apply (inj reverse).
Qed.

Lemma id_chars_unique (pre1 pre2 ns1 ns2 cs1 cs2 : list ascii) :
  Forall (λ c, is_digit c = true) ns1 → Forall (λ c, is_digit c = true) ns2 →
  Forall (λ c, is_digit c = true) cs1 → Forall (λ c, is_digit c = true) cs2 →
  pre1 ++ list_ascii_of_string "_node" ++ ns1 ++ list_ascii_of_string "_chunk" ++ cs1 =
  pre2 ++ list_ascii_of_string "_node" ++ ns2 ++ list_ascii_of_string "_chunk" ++ cs2 →
  pre1 = pre2 ∧ ns1 = ns2 ∧ cs1 = cs2.
Proof.
  intros Hns1 Hns2 Hcs1 Hcs2 Heq.
  assert (∀ pre ns cs : list ascii,
    pre ++ list_ascii_of_string "_node" ++ ns ++ list_ascii_of_string "_chunk" ++ cs =
    ((pre ++ list_ascii_of_string "_nod") ++ "e"%char :: ns ++ list_ascii_of_string "_chun")
      ++ "k"%char :: cs) as Hshape.
  { intros. by rewrite <-!app_assoc; simpl; rewrite <-!app_assoc. }
  rewrite (Hshape pre1), (Hshape pre2) in Heq.
  apply digit_tail_unique in Heq as (Heq & _ & ->); [|done..].
  rewrite !app_comm_cons, !app_assoc in Heq.
  apply (inj (λ l, l ++ _)) in Heq.
  apply digit_tail_unique in Heq as (Heq & _ & ->); [|done..].
  by apply (inj (λ l, l ++ _)) in Heq as ->.
Qed.

Theorem vector_id_inj pdf1 pdf2 n1 n2 c1 c2 :
  vector_id pdf1 n1 c1 = vector_id pdf2 n2 c2 →
  pdf1 = pdf2 ∧ n1 = n2 ∧ c1 = c2.
Proof.
  unfold vector_id. intros Heq%(f_equal list_ascii_of_string).
  rewrite !chars_app in Heq.
  apply id_chars_unique in Heq as (Hp & Hn & Hc); [|apply pretty_nat_digits..].
  split; [by apply chars_inj|].
  split; by apply (inj pretty), chars_inj.
Qed.
End VectorId.

(** * The index as a map: [index.upsert] *)

Section StoreBatch.
Implicit Types (b : list VectorRecord) (m : gmap string VectorRecord).

Lemma store_batch_cons r b m :
  store_batch (r :: b) m = store_batch b (<[vec_id r := r]> m).
Proof. done. Qed.

(** A record already stored stays as it is when the batch holds no other
    record under its id. *)
Lemma store_batch_keep b m r :
  (∀ r', r' ∈ b → vec_id r' = vec_id r → r' = r) →
  m !! vec_id r = Some r →
  store_batch b m !! vec_id r = Some r.
Proof.
  revert m. induction b as [|r' b IH]; intros m Hf Hm; [done|].
  rewrite store_batch_cons. apply IH.
  - intros r'' ? ?. apply Hf; [by right|done].
  - destruct (decide (vec_id r' = vec_id r)) as [Heq|Hne].
    + rewrite (Hf r' ltac:(left) Heq). apply lookup_insert_eq.
    + by rewrite lookup_insert_ne.
Qed.

Lemma store_batch_in b m r :
  r ∈ b →
  (∀ r', r' ∈ b → vec_id r' = vec_id r → r' = r) →
  store_batch b m !! vec_id r = Some r.
Proof.
  revert m. induction b as [|r' b IH]; intros m Hin Hf.
  { by apply elem_of_nil in Hin. }
  rewrite store_batch_cons. apply elem_of_cons in Hin as [->|Hin].
  - apply store_batch_keep; [|apply lookup_insert_eq].
    intros r'' ? ?. apply Hf; [by right|done].
  - apply IH; [done|]. intros r'' ? ?. apply Hf; [by right|done].
Qed.

Lemma dom_store_batch b m id :
  id ∈ dom (store_batch b m) ↔ id ∈ dom m ∨ id ∈ vec_id <$> b.
Proof.
  revert m. induction b as [|r b IH]; intros m.
  - simpl. rewrite elem_of_nil. tauto.
  - rewrite store_batch_cons, IH, dom_insert, elem_of_union,
      elem_of_singleton, fmap_cons, elem_of_cons.
    tauto.
Qed.

Lemma store_batch_app b1 b2 m :
  store_batch (b1 ++ b2) m = store_batch b2 (store_batch b1 m).
Proof. apply foldl_app. Qed.

End StoreBatch.

Lemma upsert_batches_app evs1 evs2 :
  upsert_batches (evs1 ++ evs2) = upsert_batches evs1 ++ upsert_batches evs2.
Proof.
  induction evs1 as [|ev evs1 IH]; [done|].
  destruct ev; simpl; by rewrite IH.
Qed.

Lemma embedded_texts_app evs1 evs2 :
  embedded_texts (evs1 ++ evs2) = embedded_texts evs1 ++ embedded_texts evs2.
Proof.
  induction evs1 as [|ev evs1 IH]; [done|].
  destruct ev; simpl; by rewrite IH.
Qed.

(** * The primitive calls *)

Section Calls.
Context (env : Env).

Lemma create_embedding_run text ty w :
  create_embedding env text ty w =
    (embeddings_create env (trace w) text ty,
     log_event (EvEmbed text ty (embeddings_create env (trace w) text ty)) w).
Proof.
  unfold create_embedding, log_and_reraise.
  by destruct (embeddings_create env (trace w) text ty).
Qed.

Lemma upsert_accepted vectors w :
  index_upsert env (trace w) vectors = Accepted →
  upsert env vectors w =
    (inr tt, mkWorld (trace w ++ [EvUpsert vectors Accepted])
               (store_batch vectors (index w))).
Proof. unfold upsert. by intros ->. Qed.

Lemma upsert_rejected vectors w e applied :
  index_upsert env (trace w) vectors = Rejected e applied →
  upsert env vectors w =
    (inl e, mkWorld (trace w ++ [EvUpsert vectors (Rejected e applied)])
              (store_batch (take applied vectors) (index w))).
Proof. unfold upsert. by intros ->. Qed.

End Calls.

(** * The write path: the loop invariant *)

Section WritePath.
Context (env : Env) (pdf_id : string) (nodes : list DocumentNode).

Local Abbreviation inv := (inv env pdf_id nodes).
Local Abbreviation aborted := (aborted env pdf_id nodes).
Local Abbreviation made_at := (made_at env pdf_id nodes).
Local Abbreviation is_site_id := (is_site_id env pdf_id nodes).

Lemma site_lt_succ s n c :
  site_lt s (n, S c) ↔ site_lt s (n, c) ∨ s = (n, c).
Proof.
  destruct s as [n' c']. unfold site_lt; simpl. split.
  - intros [?|[-> ?]]; [by left; left|].
    destruct (decide (c' = c)) as [->|]; [by right|left; right; lia].
  - intros [[?|[-> ?]]|[= -> ->]]; [by left|right; lia|right; lia].
Qed.

Lemma site_lt_irrefl s : ¬ site_lt s s.
Proof. unfold site_lt. lia. Qed.

Lemma site_lt_next_node s n len :
  site_lt s (n, len) → site_lt s (S n, 0).
Proof. unfold site_lt; simpl. lia. Qed.

Lemma made_at_site_id n c r : made_at n c r → is_site_id (vec_id r).
Proof.
  intros (node & chunk & Hn & Hc & Hid & _).
  exists n, c, node. split; [done|]. split; [|done].
  by eapply lookup_lt_Some.
Qed.

Lemma records_of_snoc vectors evs r x :
  x ∈ records_of (vectors ++ [r]) evs ↔ x ∈ records_of vectors evs ∨ x = r.
Proof.
  unfold records_of. rewrite !elem_of_app, list_elem_of_singleton. tauto.
Qed.

Lemma records_of_upsert vectors evs reply x :
  x ∈ records_of vectors (evs ++ [EvUpsert vectors reply]) ↔
  x ∈ records_of vectors evs.
Proof.
  unfold records_of. rewrite upsert_batches_app, concat_app; simpl.
  rewrite app_nil_r, !elem_of_app. tauto.
Qed.

Lemma batches_snoc_upsert evs vectors reply :
  concat (upsert_batches (evs ++ [EvUpsert vectors reply])) =
  concat (upsert_batches evs) ++ vectors.
Proof.
  rewrite upsert_batches_app, concat_app; simpl. by rewrite app_nil_r.
Qed.

Lemma batches_snoc_other evs ev :
  (∀ vectors reply, ev ≠ EvUpsert vectors reply) →
  upsert_batches (evs ++ [ev]) = upsert_batches evs.
Proof.
  intros Hev. rewrite upsert_batches_app.
  destruct ev; simpl; try apply app_nil_r. by destruct (Hev vectors reply).
Qed.

Lemma inv_init w0 : inv w0 0 0 [] w0 [].
Proof.
  split; simpl.
  - by rewrite app_nil_r.
  - constructor.
  - intros r Hr. by apply elem_of_nil in Hr.
  - intros r1 r2 Hr. by apply elem_of_nil in Hr.
  - intros r Hr. by apply elem_of_nil in Hr.
  - intros n' c' node Hlt. unfold site_lt in Hlt; simpl in Hlt. lia.
  - intros id. rewrite elem_of_nil. tauto.
Qed.

(** One more chunk embedded: its record joins the buffer. *)
Lemma inv_embed w0 n c vectors w evs node chunk emb :
  inv w0 n c vectors w evs →
  nodes !! n = Some node →
  chunks_of env node !! c = Some chunk →
  let r := mkVector (vector_id pdf_id n c) emb
             (chunk_metadata_of pdf_id n c
                (json_dumps env (node_info (node_page_num node)
                                   (node_image_path node) chunk))) in
  inv w0 n (S c) (vectors ++ [r])
    (log_event (EvEmbed chunk Passage (inr emb)) w)
    (evs ++ [EvEmbed chunk Passage (inr emb)]).
Proof.
  intros [Htr Hok Hmade Hfun Hst Hcomp Hdom] Hnode Hchunk r.
  assert (upsert_batches (evs ++ [EvEmbed chunk Passage (inr emb)])
          = upsert_batches evs) as Hb by (by apply batches_snoc_other).
  assert (∀ x, x ∈ records_of (vectors ++ [r])
                    (evs ++ [EvEmbed chunk Passage (inr emb)])
               ↔ x ∈ records_of vectors evs ∨ x = r) as Hmem.
  { intros x. rewrite records_of_snoc. unfold records_of. by rewrite Hb. }
  assert (made_at n c r) as Hr by (by exists node, chunk).
  assert (∀ x, x ∈ records_of vectors evs → vec_id x ≠ vec_id r) as Hfresh.
  { intros x (n' & c' & Hlt & (_ & _ & _ & _ & Hid & _))%Hmade Heq.
    rewrite Hid in Heq. simpl in Heq.
    apply vector_id_inj in Heq as (_ & -> & ->).
    by apply site_lt_irrefl in Hlt. }
  split.
  - simpl. by rewrite Htr, app_assoc.
  - apply Forall_app. split; [done|]. by repeat constructor.
  - intros x [Hx| ->]%Hmem.
    + destruct (Hmade x Hx) as (n' & c' & Hlt & Hm).
      exists n', c'. split; [|done]. apply site_lt_succ. by left.
    + exists n, c. split; [|done]. apply site_lt_succ. by right.
  - intros r1 r2 [H1| ->]%Hmem [H2| ->]%Hmem Heq.
    + by apply Hfun.
    + by destruct (Hfresh r1 H1).
    + by destruct (Hfresh r2 H2).
    + done.
  - rewrite Hb. simpl. done.
  - intros n' c' node' [Hlt|[= -> ->]]%site_lt_succ Hn' Hc'.
    + destruct (Hcomp n' c' node' Hlt Hn' Hc') as (x & Hx & Hid).
      exists x. split; [|done]. apply Hmem. by left.
    + exists r. split; [|done]. apply Hmem. by right.
  - rewrite Hb. simpl. done.
Qed.

(** An accepted flush: the buffer is now stored (and still the buffer). *)
Lemma inv_upsert w0 n c vectors w evs :
  inv w0 n c vectors w evs →
  inv w0 n c vectors
    (mkWorld (trace w ++ [EvUpsert vectors Accepted])
       (store_batch vectors (index w)))
    (evs ++ [EvUpsert vectors Accepted]).
Proof.
  intros [Htr Hok Hmade Hfun Hst Hcomp Hdom].
  split; simpl.
  - by rewrite Htr, app_assoc.
  - apply Forall_app. split; [done|]. by repeat constructor.
  - intros r Hr%records_of_upsert. by apply Hmade.
  - intros r1 r2 H1%records_of_upsert H2%records_of_upsert. by apply Hfun.
  - intros r. rewrite batches_snoc_upsert. intros [Hr|Hr]%elem_of_app.
    + apply store_batch_keep; [|by apply Hst].
      intros r' Hr' Heq. apply Hfun; [| |done]; unfold records_of;
        apply elem_of_app; [by left|by right].
    + apply store_batch_in; [done|].
      intros r' Hr' Heq. apply Hfun; [| |done]; unfold records_of;
        apply elem_of_app; by left.
  - intros n' c' node Hlt Hn' Hc'.
    destruct (Hcomp n' c' node Hlt Hn' Hc') as (x & Hx & Hid).
    exists x. split; [|done]. by apply records_of_upsert.
  - intros id. rewrite dom_store_batch, Hdom, batches_snoc_upsert, fmap_app,
      elem_of_app. tauto.
Qed.

(** [vectors = []] after a flush. *)
Lemma inv_clear w0 n c vectors w evs :
  inv w0 n c vectors w evs →
  (∀ r, r ∈ vectors → r ∈ concat (upsert_batches evs)) →
  inv w0 n c [] w evs.
Proof.
  intros [Htr Hok Hmade Hfun Hst Hcomp Hdom] Hflushed.
  assert (∀ x, x ∈ records_of [] evs ↔ x ∈ records_of vectors evs) as Hmem.
  { intros x. unfold records_of. rewrite !elem_of_app, elem_of_nil.
    split; [intros [[]|?]; by right|intros [?%Hflushed|?]; by right]. }
  split; try done.
  - intros r Hr%Hmem. by apply Hmade.
  - intros r1 r2 H1%Hmem H2%Hmem. by apply Hfun.
  - intros n' c' node Hlt Hn' Hc'.
    destruct (Hcomp n' c' node Hlt Hn' Hc') as (x & Hx & Hid).
    exists x. split; [|done]. by apply Hmem.
Qed.

Lemma inv_sleep w0 n c vectors w evs :
  inv w0 n c vectors w evs →
  inv w0 n c vectors (log_event EvSleep w) (evs ++ [EvSleep]).
Proof.
  intros [Htr Hok Hmade Hfun Hst Hcomp Hdom].
  assert (upsert_batches (evs ++ [EvSleep]) = upsert_batches evs) as Hb
    by (by apply batches_snoc_other).
  split; unfold records_of; rewrite ?Hb; simpl; try done.
  - by rewrite Htr, app_assoc.
  - apply Forall_app. split; [done|]. by repeat constructor.
Qed.

(** The end of a node's chunks is the start of the next node. *)
Lemma inv_next_node w0 n vectors w evs node :
  nodes !! n = Some node →
  inv w0 n (length (chunks_of env node)) vectors w evs →
  inv w0 (S n) 0 vectors w evs.
Proof.
  intros Hnode [Htr Hok Hmade Hfun Hst Hcomp Hdom].
  split; try done.
  - intros r (n' & c' & Hlt & Hm)%Hmade. exists n', c'.
    split; [by eapply site_lt_next_node|done].
  - intros n' c' node' Hlt Hn' Hc'. apply (Hcomp n' c' node'); [|done..].
    unfold site_lt in *; simpl in *.
    destruct (decide (n' = n)) as [->|]; [|lia].
    right. split; [done|]. congruence.
Qed.

(** The two ways a run stops. *)
Lemma aborted_embed w0 n c vectors w evs text e :
  inv w0 n c vectors w evs →
  aborted w0 e (log_event (EvEmbed text Passage (inl e)) w)
    evs (EvEmbed text Passage (inl e)).
Proof.
  intros [Htr Hok Hmade Hfun Hst Hcomp Hdom].
  assert (upsert_batches (evs ++ [EvEmbed text Passage (inl e)])
          = upsert_batches evs) as Hb by (by apply batches_snoc_other).
  split; simpl; try done.
  - by rewrite Htr, app_assoc.
  - rewrite Hb. intros r Hr.
    destruct (Hmade r) as (n' & c' & _ & Hm); [|by eauto].
    unfold records_of. apply elem_of_app. by right.
  - intros id [?|(r & -> & Hr)%list_elem_of_fmap]%Hdom; [by left|right].
    destruct (Hmade r) as (n' & c' & _ & Hm); [|by eapply made_at_site_id].
    unfold records_of. apply elem_of_app. by right.
  - intros id Hid. apply Hdom. by left.
Qed.

Lemma aborted_upsert w0 n c vectors w evs e applied :
  inv w0 n c vectors w evs →
  aborted w0 e
    (mkWorld (trace w ++ [EvUpsert vectors (Rejected e applied)])
       (store_batch (take applied vectors) (index w)))
    evs (EvUpsert vectors (Rejected e applied)).
Proof.
  intros [Htr Hok Hmade Hfun Hst Hcomp Hdom].
  split; simpl; try done.
  - by rewrite Htr, app_assoc.
  - intros r Hr. rewrite batches_snoc_upsert in Hr.
    destruct (Hmade r) as (n' & c' & _ & Hm); [|by eauto].
    unfold records_of. rewrite elem_of_app in *. tauto.
  - intros r Hr. apply store_batch_keep; [|by apply Hst].
    intros r' Hr'%subseteq_take Heq. apply Hfun; [| |done]; unfold records_of;
      apply elem_of_app; [by left|by right].
  - intros id [[?|(r & -> & Hr)%list_elem_of_fmap]%Hdom
              |(r & -> & Hr%subseteq_take)%list_elem_of_fmap]%dom_store_batch;
      [by left|right..].
    + destruct (Hmade r) as (n' & c' & _ & Hm); [|by eapply made_at_site_id].
      unfold records_of. apply elem_of_app. by right.
    + destruct (Hmade r) as (n' & c' & _ & Hm); [|by eapply made_at_site_id].
      unfold records_of. apply elem_of_app. by left.
  - intros id Hid. apply dom_store_batch. left. apply Hdom. by left.
Qed.

(** The flush inside the chunk loop. *)
Lemma flush_if_full_spec w0 n c vectors w evs :
  inv w0 n c vectors w evs →
  match (if decide (batch_size ≤ length vectors)
         then (upsert env vectors ;; sleep ;; ret [])
         else ret vectors) w with
  | (inr vectors', w') => ∃ evs', inv w0 n c vectors' w' evs'
  | (inl e, w') => ∃ evs' bad, aborted w0 e w' evs' bad
  end.
Proof.
  intros Hinv. case_decide; [|by exists evs].
  unfold bind at 1.
  destruct (index_upsert env (trace w) vectors) as [|e applied] eqn:Hup.
  - rewrite (upsert_accepted env _ _ Hup). unfold bind, sleep, ret.
    eexists. apply inv_sleep. eapply inv_clear; [by apply inv_upsert|].
    intros r Hr. rewrite batches_snoc_upsert. apply elem_of_app. by right.
  - rewrite (upsert_rejected env _ _ _ _ Hup).
    eexists _, _. by eapply aborted_upsert.
Qed.

Lemma chunk_loop_spec w0 n node rest :
  nodes !! n = Some node →
  ∀ before c vectors w evs,
    chunks_of env node = before ++ rest → c = length before →
    inv w0 n c vectors w evs →
    match chunk_loop env pdf_id n (node_page_num node) (node_image_path node)
            c rest vectors w with
    | (inr vectors', w') =>
        ∃ evs', inv w0 n (length (chunks_of env node)) vectors' w' evs'
    | (inl e, w') => ∃ evs' bad, aborted w0 e w' evs' bad
    end.
Proof.
  intros Hnode. induction rest as [|chunk rest IH];
    intros before c vectors w evs Hsplit -> Hinv.
  { simpl. exists evs. by rewrite Hsplit, app_nil_r. }
  simpl. unfold bind at 1. rewrite create_embedding_run.
  destruct (embeddings_create env (trace w) chunk Passage) as [e|emb].
  { eexists _, _. by eapply aborted_embed. }
  assert (chunks_of env node !! length before = Some chunk) as Hchunk.
  { rewrite Hsplit. by apply list_lookup_middle. }
  pose proof (inv_embed _ _ _ _ _ _ _ _ emb Hinv Hnode Hchunk) as Hinv1.
  simpl in Hinv1. unfold bind at 1.
  pose proof (flush_if_full_spec _ _ _ _ _ _ Hinv1) as Hflush.
  destruct (_ (log_event _ w)) as [[e|vectors'] w'] eqn:Hstep; [done|].
  destruct Hflush as [evs' Hinv2].
  apply (IH (before ++ [chunk]) _ _ _ evs').
  - by rewrite <-app_assoc.
  - rewrite length_app; simpl. lia.
  - done.
Qed.

Lemma node_loop_spec w0 rest :
  ∀ before vectors w evs,
    nodes = before ++ rest →
    inv w0 (length before) 0 vectors w evs →
    (∀ r, r ∈ vectors → r ∈ concat (upsert_batches evs)) →
    match node_loop env pdf_id (length before) rest vectors w with
    | (inr vectors', w') =>
        ∃ evs', inv w0 (length nodes) 0 vectors' w' evs' ∧
                ∀ r, r ∈ vectors' → r ∈ concat (upsert_batches evs')
    | (inl e, w') => ∃ evs' bad, aborted w0 e w' evs' bad
    end.
Proof.
  induction rest as [|node rest IH]; intros before vectors w evs Hsplit Hinv Hfl.
  { simpl. exists evs.
    assert (length nodes = length before) as ->
      by (by rewrite Hsplit, app_nil_r).
    by split. }
  assert (nodes !! length before = Some node) as Hnode.
  { rewrite Hsplit. by apply list_lookup_middle. }
  simpl. unfold bind at 1.
  pose proof (chunk_loop_spec w0 _ _ (chunks_of env node) Hnode [] 0
                vectors w evs eq_refl eq_refl Hinv) as Hchunks.
  fold (chunks_of env node).
  destruct (chunk_loop _ _ _ _ _ _ _ _ w) as [[e|vectors'] w'];
    [done|].
  destruct Hchunks as [evs' Hinv1].
  assert (∀ w2 evs2,
    inv w0 (length before) (length (chunks_of env node)) vectors' w2 evs2 →
    (∀ r, r ∈ vectors' → r ∈ concat (upsert_batches evs2)) →
    match node_loop env pdf_id (S (length before)) rest vectors' w2 with
    | (inr vectors'', w'') =>
        ∃ evs'', inv w0 (length nodes) 0 vectors'' w'' evs'' ∧
                 ∀ r, r ∈ vectors'' → r ∈ concat (upsert_batches evs'')
    | (inl e, w'') => ∃ evs'' bad, aborted w0 e w'' evs'' bad
    end) as Hnext.
  { intros w2 evs2 Hinv2 Hfl2.
    pose proof (IH (before ++ [node]) vectors' w2 evs2) as IH'.
    rewrite length_app in IH'; simpl in IH'.
    replace (length before + 1) with (S (length before)) in IH' by lia.
    apply IH'; [by rewrite <-app_assoc| |done].
    by eapply inv_next_node. }
  unfold bind at 1. destruct vectors' as [|r vectors'].
  { unfold ret. apply (Hnext w' evs' Hinv1). intros r Hr.
    by apply elem_of_nil in Hr. }
  destruct (index_upsert env (trace w') (r :: vectors'))
    as [|e applied] eqn:Hup.
  - rewrite (upsert_accepted env _ _ Hup).
    apply (Hnext _ _ (inv_upsert _ _ _ _ _ _ Hinv1)).
    intros x Hx. rewrite batches_snoc_upsert. apply elem_of_app. by right.
  - rewrite (upsert_rejected env _ _ _ _ Hup).
    eexists _, _. by eapply aborted_upsert.
Qed.

(** What a run of [process_nodes_and_store] has done when it returns, and
    when it raises. *)
Lemma process_nodes_and_store_spec w0 :
  match process_nodes_and_store env nodes pdf_id w0 with
  | (inr _, w') =>
      ∃ vectors evs, inv w0 (length nodes) 0 vectors w' evs ∧
                     ∀ r, r ∈ vectors → r ∈ concat (upsert_batches evs)
  | (inl e, w') => ∃ evs bad, aborted w0 e w' evs bad
  end.
Proof.
  unfold process_nodes_and_store, log_and_reraise, bind, ret.
  pose proof (node_loop_spec w0 nodes [] [] w0 [] eq_refl (inv_init w0)) as H.
  simpl in H.
  destruct (node_loop env pdf_id 0 nodes [] w0) as [[e|vectors] w']; [by apply H|].
  destruct H as (evs & Hinv & Hfl).
  { intros r Hr. by apply elem_of_nil in Hr. }
  by exists vectors, evs.
Qed.

(** After a run that returned, the ids in the index are those it held
    before and those of the document. *)
Lemma process_nodes_and_store_dom w0 w' :
  process_nodes_and_store env nodes pdf_id w0 = (inr tt, w') →
  ∀ id, id ∈ dom (index w') ↔ id ∈ dom (index w0) ∨ is_site_id id.
Proof.
  intros Hrun id. pose proof (process_nodes_and_store_spec w0) as H.
  rewrite Hrun in H. destruct H as (vectors & evs & Hinv & Hfl).
  rewrite (inv_dom _ _ _ _ _ _ _ _ _ Hinv). split.
  - intros [?|(r & -> & Hr)%list_elem_of_fmap]; [by left|right].
    destruct (inv_made _ _ _ _ _ _ _ _ _ Hinv r) as (n & c & _ & Hm);
      [|by eapply made_at_site_id].
    unfold records_of. apply elem_of_app. by right.
  - intros [?|(n & c & node & Hn & Hc & ->)]; [by left|right].
    destruct (inv_complete _ _ _ _ _ _ _ _ _ Hinv n c node) as (r & Hr & <-);
      [|done|done|].
    { left; simpl. by eapply lookup_lt_Some. }
    apply list_elem_of_fmap. exists r. split; [done|].
    unfold records_of in Hr. apply elem_of_app in Hr as [Hr|Hr]; [|done].
    by apply Hfl.
Qed.

End WritePath.

(** * The write path: the claims *)

Lemma upsert_batches_elem evs vectors reply r :
  EvUpsert vectors reply ∈ evs → r ∈ vectors →
  r ∈ concat (upsert_batches evs).
Proof.
  intros (evs1 & evs2 & ->)%list_elem_of_split Hr.
  rewrite upsert_batches_app, concat_app; simpl.
  rewrite !elem_of_app. right. by left.
Qed.

(** A record built by the write path, read back the way [search_similar]
    reads a match. *)
Lemma format_match_made env pdf_id n c r node chunk score :
  json_loads env (json_dumps env (node_info (node_page_num node)
                                    (node_image_path node) chunk))
    = Some (node_info (node_page_num node) (node_image_path node) chunk) →
  vec_metadata r =
    chunk_metadata_of pdf_id n c
      (json_dumps env (node_info (node_page_num node) (node_image_path node) chunk)) →
  format_match env (mkMatch score (vec_metadata r)) =
    inr (mkResult score (PStr pdf_id) (PInt (Z.of_nat c))
           (from_option PInt (PStr "") (node_page_num node))
           (from_option PStr (PStr "") (node_image_path node))
           (PStr chunk)).
Proof.
  intros Hjson ->. unfold format_match, parse_match, meta_get, chunk_metadata_of.
  simpl. rewrite !lookup_insert_ne, lookup_insert_eq by done. simpl.
  rewrite Hjson. simpl.
  rewrite lookup_insert_eq, lookup_insert_ne, lookup_insert_eq by done. simpl.
  by destruct (node_page_num node), (node_image_path node).
Qed.

Lemma node_loop_chunkless env pdf_id nodes :
  Forall (λ node, chunks_of env node = []) nodes →
  ∀ n w, node_loop env pdf_id n nodes [] w = (inr [], w).
Proof.
  induction 1 as [|node nodes Hnode _ IH]; intros n w; [done|].
  simpl. unfold chunks_of in Hnode. rewrite Hnode. simpl.
  unfold bind, ret. apply IH.
Qed.

(** C10 (nothing to index).  When every node of the sequence, possibly
    none, lacks the ['content'] key or has a content that splits into zero
    chunks, [process_nodes_and_store] returns normally in the world it
    started in: no embedding call, no upsert call, the index as it was.  The
    splitter is taken to return no chunk for the empty text. *)
Theorem chunkless_nodes_leave_world_unchanged (env : Env)
    (nodes : list DocumentNode) (pdf_id : string) (w : World) :
  split_text env "" = [] →
  Forall (λ node, node_content node = None ∨ chunks_of env node = []) nodes →
  process_nodes_and_store env nodes pdf_id w = (inr tt, w).
Proof.
  intros Hempty Hnodes.
  unfold process_nodes_and_store, log_and_reraise, bind.
  rewrite node_loop_chunkless; [done|].
  eapply Forall_impl; [exact Hnodes|]. intros node [Hnone|?]; [|done].
  unfold chunks_of. by rewrite Hnone.
Qed.

Lemma chunk_loop_one env pdf_id n page_num image_path chunk vectors w emb :
  embeddings_create env (trace w) chunk Passage = inr emb →
  length vectors + 1 < batch_size →
  chunk_loop env pdf_id n page_num image_path 0 [chunk] vectors w =
    (inr (vectors ++
          [mkVector (vector_id pdf_id n 0) emb
             (chunk_metadata_of pdf_id n 0
                (json_dumps env (node_info page_num image_path chunk)))]),
     log_event (EvEmbed chunk Passage (inr emb)) w).
Proof.
  intros Hemb Hlen. cbn [chunk_loop]. unfold bind at 1.
  rewrite create_embedding_run, Hemb. unfold bind at 1.
  case_decide as Hfull; [|done].
  rewrite length_app in Hfull. simpl in Hfull. lia.
Qed.

Lemma bind_run {A B} (m : M A) (k : A → M B) w a w' :
  m w = (inr a, w') → bind m k w = k a w'.
Proof. unfold bind. by intros ->. Qed.

Lemma flush_remaining_accepted env vectors w :
  vectors ≠ [] →
  index_upsert env (trace w) vectors = Accepted →
  (match vectors with [] => ret tt | _ :: _ => upsert env vectors end) w =
    (inr tt, mkWorld (trace w ++ [EvUpsert vectors Accepted])
               (store_batch vectors (index w))).
Proof. destruct vectors; [done|]. intros _. apply upsert_accepted. Qed.

(** A node of one chunk, met with a buffer far from full: the chunk is
    embedded, its record joins the buffer, the buffer is flushed, and it is
    carried to the next node as it is. *)
Lemma node_loop_one env pdf_id n node rest chunk vectors w emb :
  chunks_of env node = [chunk] →
  embeddings_create env (trace w) chunk Passage = inr emb →
  let r := mkVector (vector_id pdf_id n 0) emb
             (chunk_metadata_of pdf_id n 0
                (json_dumps env (node_info (node_page_num node)
                                   (node_image_path node) chunk))) in
  let w1 := log_event (EvEmbed chunk Passage (inr emb)) w in
  index_upsert env (trace w1) (vectors ++ [r]) = Accepted →
  length vectors + 1 < batch_size →
  node_loop env pdf_id n (node :: rest) vectors w =
    node_loop env pdf_id (S n) rest (vectors ++ [r])
      (mkWorld (trace w1 ++ [EvUpsert (vectors ++ [r]) Accepted])
         (store_batch (vectors ++ [r]) (index w1))).
Proof.
  intros Hchunks Hemb r w1 Hup Hlen. unfold chunks_of in Hchunks.
  cbn [node_loop]. rewrite Hchunks.
  rewrite (bind_run _ _ w (vectors ++ [r]) w1)
    by (by apply chunk_loop_one).
  rewrite (bind_run _ _ w1 tt _
             (flush_remaining_accepted env (vectors ++ [r]) w1 ltac:(by destruct vectors) Hup)).
  done.
Qed.

(** C2 (batch boundary), evaluated where it fails.  Two nodes of one chunk
    each give R = 2 records.  When every call succeeds the run makes two
    upsert calls, the first with the record of node 0 and the second with
    that record again followed by the record of node 1, where the batch rule
    promises [ceil_div 2 50 = 1] call carrying both. *)
Theorem second_node_flushes_first_again (env : Env) (n1 n2 : DocumentNode)
    (c1 c2 : string) (pdf_id : string) (w : World) :
  chunks_of env n1 = [c1] →
  chunks_of env n2 = [c2] →
  (∀ tr text, text ∈ [c1; c2] →
     ∃ emb, embeddings_create env tr text Passage = inr emb) →
  (∀ tr vectors, index_upsert env tr vectors = Accepted) →
  ∃ w' evs r1 r2,
    process_nodes_and_store env [n1; n2] pdf_id w = (inr tt, w') ∧
    trace w' = trace w ++ evs ∧
    embedded_texts evs = [c1; c2] ∧
    upsert_batches evs = [[r1]; [r1; r2]] ∧
    vec_id r1 = vector_id pdf_id 0 0 ∧
    vec_id r2 = vector_id pdf_id 1 0 ∧
    length (upsert_batches evs) = 2 ∧ ceil_div 2 batch_size = 1.
Proof.
  intros H1 H2 Hemb Hup.
  destruct (Hemb (trace w) c1) as [e1 He1]; [by left|].
  set (r1 := mkVector (vector_id pdf_id 0 0) e1
               (chunk_metadata_of pdf_id 0 0
                  (json_dumps env (node_info (node_page_num n1)
                                     (node_image_path n1) c1)))).
  set (w1 := log_event (EvEmbed c1 Passage (inr e1)) w).
  set (w2 := mkWorld (trace w1 ++ [EvUpsert [r1] Accepted])
               (store_batch [r1] (index w1))).
  destruct (Hemb (trace w2) c2) as [e2 He2]; [by right; left|].
  set (r2 := mkVector (vector_id pdf_id 1 0) e2
               (chunk_metadata_of pdf_id 1 0
                  (json_dumps env (node_info (node_page_num n2)
                                     (node_image_path n2) c2)))).
  set (w3 := log_event (EvEmbed c2 Passage (inr e2)) w2).
  set (w4 := mkWorld (trace w3 ++ [EvUpsert [r1; r2] Accepted])
               (store_batch [r1; r2] (index w3))).
  exists w4, [EvEmbed c1 Passage (inr e1); EvUpsert [r1] Accepted;
              EvEmbed c2 Passage (inr e2); EvUpsert [r1; r2] Accepted], r1, r2.
  split; [|split; [|done]].
  - unfold process_nodes_and_store, log_and_reraise.
    rewrite (bind_run _ _ w [r1; r2] w4); [done|].
    rewrite (node_loop_one env pdf_id 0 n1 [n2] c1 [] w e1 H1 He1 (Hup _ _))
      by (unfold batch_size; simpl; lia).
    change (node_loop env pdf_id 1 [n2] [r1] w2 = (inr [r1; r2], w4)).
    rewrite (node_loop_one env pdf_id 1 n2 [] c2 [r1] w2 e2 H2 He2 (Hup _ _))
      by (unfold batch_size; simpl; lia).
    done.
  - simpl. by rewrite <-!app_assoc.
Qed.

(** ** The batch rule inside one node

    With a single node the buffer is flushed once after the last chunk, so
    the number of upsert calls is the rounded-up quotient; it is the second
    node that breaks the rule. *)

Section SingleNode.
Context (env : Env) (pdf_id : string).
Hypothesis embed_ok : ∀ tr text, ∃ emb, embeddings_create env tr text Passage = inr emb.
Hypothesis upsert_ok : ∀ tr vectors, index_upsert env tr vectors = Accepted.

Lemma chunk_loop_batches n page_num image_path chunks :
  ∀ c vectors w,
    length vectors < batch_size →
    ∃ vectors' w' evs,
      chunk_loop env pdf_id n page_num image_path c chunks vectors w
        = (inr vectors', w') ∧
      trace w' = trace w ++ evs ∧
      embedded_texts evs = chunks ∧
      length <$> upsert_batches evs =
        replicate ((length vectors + length chunks) / batch_size) batch_size ∧
      length vectors' = (length vectors + length chunks) `mod` batch_size.
Proof.
  induction chunks as [|chunk chunks IH]; intros c vectors w Hlen.
  { exists vectors, w, []. cbn [chunk_loop length upsert_batches fmap list_fmap].
    rewrite app_nil_r, Nat.add_0_r, Nat.div_small, Nat.mod_small by done.
    done. }
  cbn [chunk_loop]. unfold bind at 1. rewrite create_embedding_run.
  destruct (embed_ok (trace w) chunk) as [emb ->].
  set (r := mkVector _ _ _). set (w1 := log_event _ w).
  unfold bind at 1. case_decide as Hfull.
  - rewrite length_app in Hfull. simpl in Hfull.
    assert (length vectors + 1 = batch_size) as Hb by lia.
    unfold bind at 1. rewrite (upsert_accepted env _ _ (upsert_ok _ _)).
    unfold bind at 1. unfold sleep at 1. unfold ret at 1.
    destruct (IH (S c) [] (log_event EvSleep
                (mkWorld (trace w1 ++ [EvUpsert (vectors ++ [r]) Accepted])
                   (store_batch (vectors ++ [r]) (index w1)))))
      as (vectors' & w' & evs & -> & Htr & Hemb & Hbs & Hlen').
    { unfold batch_size. simpl. lia. }
    exists vectors', w',
      ([EvEmbed chunk Passage (inr emb); EvUpsert (vectors ++ [r]) Accepted;
        EvSleep] ++ evs).
    split; [done|]. split.
    { rewrite Htr. simpl. by rewrite <-!app_assoc. }
    split; [by cbn; rewrite Hemb|].
    cbn [app upsert_batches fmap list_fmap length] in *.
    rewrite ?Nat.add_0_l in Hbs, Hlen'. rewrite length_app. cbn [length].
    replace (length vectors + S (length chunks))
      with (length chunks + 1 * batch_size) by lia.
    rewrite Nat.div_add, Nat.Div0.mod_add by (unfold batch_size; lia).
    rewrite Hbs, Hlen', Hb, Nat.add_1_r. done.
  - rewrite length_app in Hfull. simpl in Hfull. unfold ret at 1.
    destruct (IH (S c) (vectors ++ [r]) w1)
      as (vectors' & w' & evs & -> & Htr & Hemb & Hbs & Hlen').
    { rewrite length_app. simpl. lia. }
    exists vectors', w', (EvEmbed chunk Passage (inr emb) :: evs).
    split; [done|]. split.
    { rewrite Htr. simpl. by rewrite <-!app_assoc. }
    split; [by cbn; rewrite Hemb|].
    rewrite length_app in Hbs, Hlen'.
    cbn [app upsert_batches fmap list_fmap length] in *.
    replace (length vectors + S (length chunks))
      with (length vectors + 1 + length chunks) by lia.
    done.
Qed.

(** Within one node the batch rule holds: [R] chunks make [ceil_div R 50]
    upsert calls, full batches first and the remainder last. *)
Lemma single_node_batches node w :
  let R := length (chunks_of env node) in
  ∃ w' evs,
    process_nodes_and_store env [node] pdf_id w = (inr tt, w') ∧
    trace w' = trace w ++ evs ∧
    length (embedded_texts evs) = R ∧
    length <$> upsert_batches evs =
      replicate (R / batch_size) batch_size ++
      (if decide (R `mod` batch_size = 0) then [] else [R `mod` batch_size]) ∧
    length (upsert_batches evs) = ceil_div R batch_size.
Proof.
  intros R.
  unfold process_nodes_and_store, log_and_reraise.
  unfold bind at 1. cbn [node_loop]. fold (chunks_of env node).
  unfold bind at 1.
  destruct (chunk_loop_batches 0 (node_page_num node) (node_image_path node)
              (chunks_of env node) 0 [] w)
    as (vectors & w1 & evs & -> & Htr & Hemb & Hbs & Hlen).
  { unfold batch_size. simpl. lia. }
  cbn [length] in Hbs, Hlen. rewrite Nat.add_0_l in Hbs, Hlen.
  fold R in Hbs, Hlen.
  assert (0 < batch_size) as Hpos by (unfold batch_size; lia).
  pose proof (Nat.div_mod_eq R batch_size) as Hdm.
  pose proof (Nat.mod_upper_bound R batch_size ltac:(lia)) as Hub.
  unfold bind at 1. destruct vectors as [|r vectors].
  - unfold ret. exists w1, evs. cbn [length] in Hlen.
    rewrite decide_True by done. rewrite app_nil_r.
    split; [done|]. split; [done|]. split; [by rewrite Hemb|].
    split; [done|].
    rewrite <-(length_fmap length), Hbs, length_replicate.
    unfold ceil_div, batch_size in *.
    apply Nat.div_unique with 49; lia.
  - rewrite (upsert_accepted env _ _ (upsert_ok _ _)). unfold ret.
    eexists _, (evs ++ [EvUpsert (r :: vectors) Accepted]).
    split; [done|]. split; [by cbn; rewrite Htr, app_assoc|].
    assert (R `mod` batch_size ≠ 0) as Hne by (rewrite <-Hlen; done).
    rewrite embedded_texts_app, upsert_batches_app, fmap_app, Hbs.
    cbn [embedded_texts upsert_batches app fmap list_fmap].
    rewrite app_nil_r, Hlen, decide_False by done.
    split; [by rewrite Hemb|]. split; [done|].
    rewrite length_app, <-(length_fmap length), Hbs, length_replicate.
    cbn [length]. unfold ceil_div, batch_size in *.
    apply Nat.div_unique with (R `mod` 50 - 1); lia.
Qed.
End SingleNode.

(** C4 (abort on failure), as the code has it.  When a run raises [e]: the
    events of the run are a stretch of calls that all succeeded followed by
    one last call that failed, so nothing is embedded or upserted after the
    failure; [e] is the exception of that call itself, re-raised as it
    came; every record of the batches accepted before the failure is still
    in the index as it was written; and a later run for the same document
    that returns leaves in the index the ids it held before the first run
    and the ids of the document, nothing else. *)
Theorem indexing_aborts_at_first_failure (env : Env)
    (nodes : list DocumentNode) (pdf_id : string) (w0 w' : World) (e : exn) :
  process_nodes_and_store env nodes pdf_id w0 = (inl e, w') →
  ∃ evs bad,
    trace w' = trace w0 ++ evs ++ [bad] ∧
    Forall (λ ev, event_error ev = None) evs ∧
    event_error bad = Some e ∧
    (∀ r, r ∈ concat (upsert_batches evs) → index w' !! vec_id r = Some r) ∧
    (∀ w'', process_nodes_and_store env nodes pdf_id w' = (inr tt, w'') →
       ∀ id, id ∈ dom (index w'') ↔
             id ∈ dom (index w0) ∨ is_site_id env pdf_id nodes id).
Proof.
  intros Hrun. pose proof (process_nodes_and_store_spec env pdf_id nodes w0) as H.
  rewrite Hrun in H. destruct H as (evs & bad & [Htr Hok Herr _ Hst Hdom Hkeep]).
  exists evs, bad. do 4 (split; [done|]).
  intros w'' Hrun2 id.
  rewrite (process_nodes_and_store_dom env pdf_id nodes w' w'' Hrun2 id).
  split.
  - intros [?%Hdom|?]; [done|by right].
  - intros [?%Hkeep|?]; [by left|by right].
Qed.

(** ** The ids of a document, counted *)

Section DocumentIds.
Context (env : Env) (pdf_id : string).

Lemma document_ids_snoc nodes node :
  document_ids env pdf_id (nodes ++ [node]) =
    document_ids env pdf_id nodes ++
    (vector_id pdf_id (length nodes) <$> seq 0 (length (chunks_of env node))).
Proof.
  unfold document_ids. rewrite imap_app, concat_app. simpl.
  by rewrite app_nil_r, Nat.add_0_r.
Qed.

Lemma document_ids_site nodes id :
  id ∈ document_ids env pdf_id nodes ↔ is_site_id env pdf_id nodes id.
Proof.
  induction nodes as [|node nodes IH] using rev_ind.
  { split; [by intros ?%elem_of_nil|]. by intros (n & c & nd & [=] & _). }
  rewrite document_ids_snoc, elem_of_app, IH. split.
  - intros [(n & c & nd & Hn & Hc & ->)|(c & -> & Hc)%list_elem_of_fmap].
    + exists n, c, nd. split; [|done]. by apply lookup_app_l_Some.
    + apply elem_of_seq in Hc. exists (length nodes), c, node.
      split; [by rewrite list_lookup_middle|]. split; [lia|done].
  - intros (n & c & nd & Hn & Hc & ->).
    apply lookup_app_Some in Hn as [Hn|[Hle Hn]].
    + left. by exists n, c, nd.
    + right. apply list_lookup_singleton_Some in Hn as [Hn ->].
      replace n with (length nodes) by lia.
      apply list_elem_of_fmap. exists c. split; [done|].
      apply elem_of_seq. lia.
Qed.

Lemma document_ids_NoDup nodes : NoDup (document_ids env pdf_id nodes).
Proof.
  induction nodes as [|node nodes IH] using rev_ind; [constructor|].
  rewrite document_ids_snoc. apply NoDup_app. split; [done|]. split.
  - intros id (n & c & nd & Hn & _ & ->)%document_ids_site
      (c' & Heq & _)%list_elem_of_fmap.
    apply vector_id_inj in Heq as (_ & -> & _).
    apply lookup_lt_Some in Hn. lia.
  - apply NoDup_fmap_2_strong; [|apply NoDup_seq].
    intros c1 c2 _ _ Heq. by apply vector_id_inj in Heq as (_ & _ & ->).
Qed.

Lemma document_ids_length nodes :
  length (document_ids env pdf_id nodes) = length (document_chunks env nodes).
Proof.
  unfold document_chunks.
  induction nodes as [|node nodes IH] using rev_ind; [done|].
  rewrite document_ids_snoc, fmap_app, concat_app, !length_app, IH. simpl.
  by rewrite length_fmap, length_seq, app_nil_r.
Qed.

(** After a run that returned, started on an empty index, the index holds
    as many records as the document has chunks. *)
Lemma fresh_index_size nodes w0 w' :
  index w0 = ∅ →
  process_nodes_and_store env nodes pdf_id w0 = (inr tt, w') →
  size (index w') = length (document_chunks env nodes).
Proof.
  intros Hempty Hrun.
  rewrite <-document_ids_length, <-size_dom.
  rewrite <-(size_list_to_set (C:=gset string)) by apply document_ids_NoDup.
  f_equal. apply set_eq. intros id.
  rewrite (process_nodes_and_store_dom env pdf_id nodes w0 w' Hrun id).
  rewrite Hempty, dom_empty, elem_of_list_to_set, document_ids_site.
  split; [by intros [?%elem_of_empty|?]|by right].
Qed.

(** After a run that returned, every chunk has its record under its id. *)
Lemma returned_run_stores_chunk nodes w0 w' n c node chunk :
  process_nodes_and_store env nodes pdf_id w0 = (inr tt, w') →
  nodes !! n = Some node →
  chunks_of env node !! c = Some chunk →
  ∃ r, index w' !! vector_id pdf_id n c = Some r ∧
       vec_id r = vector_id pdf_id n c ∧
       vec_metadata r =
         chunk_metadata_of pdf_id n c
           (json_dumps env (node_info (node_page_num node)
                              (node_image_path node) chunk)).
Proof.
  intros Hrun Hn Hc.
  pose proof (process_nodes_and_store_spec env pdf_id nodes w0) as H.
  rewrite Hrun in H. destruct H as (vectors & evs & Hinv & Hfl).
  destruct (inv_complete _ _ _ _ _ _ _ _ _ Hinv n c node) as (r & Hr & Hid);
    [|done|by eapply lookup_lt_Some|].
  { left; simpl. by eapply lookup_lt_Some. }
  assert (r ∈ concat (upsert_batches evs)) as Hin.
  { unfold records_of in Hr. apply elem_of_app in Hr as [?|?]; [by apply Hfl|done]. }
  exists r. split; [|split; [done|]].
  - rewrite <-Hid. by apply (inv_stored _ _ _ _ _ _ _ _ _ Hinv).
  - destruct (inv_made _ _ _ _ _ _ _ _ _ Hinv r) as (n' & c' & _ & Hm).
    { unfold records_of. apply elem_of_app. by right. }
    destruct Hm as (node' & chunk' & Hn' & Hc' & Hid' & Hmd).
    rewrite Hid in Hid'. apply vector_id_inj in Hid' as (_ & <- & <-).
    by simplify_eq.
Qed.

End DocumentIds.

(** C5 (id determinism and idempotence).  The vector id is a function of
    (document id, node index, chunk index) and distinct triples have
    distinct ids, whatever the document id contains; upserting two records
    under the id of one triple leaves one record, the later one.  A run
    that returns has written, for every chunk of every node, the record of
    that chunk under the id of its triple, and the ids it added are exactly
    the ids of the document's triples; a second run over the same nodes and
    document id that returns writes each chunk's record under the same id
    again and leaves the index with the same ids, hence the same number of
    records.  Started on an empty index, the index holds after the first
    run, and after the second, exactly as many records as the document has
    chunks: one per triple. *)
Theorem vector_id_unique_and_reindex_idempotent (env : Env) :
  (∀ pdf1 n1 c1 pdf2 n2 c2,
     vector_id pdf1 n1 c1 = vector_id pdf2 n2 c2 ↔
     (pdf1, n1, c1) = (pdf2, n2, c2)) ∧
  (∀ pdf n c emb1 md1 emb2 md2 idx,
     let r1 := mkVector (vector_id pdf n c) emb1 md1 in
     let r2 := mkVector (vector_id pdf n c) emb2 md2 in
     store_batch [r1; r2] idx = <[vector_id pdf n c := r2]> idx ∧
     size (store_batch [r1; r2] ∅) = 1) ∧
  (∀ nodes pdf_id w0 w1 w2,
     process_nodes_and_store env nodes pdf_id w0 = (inr tt, w1) →
     process_nodes_and_store env nodes pdf_id w1 = (inr tt, w2) →
     (∀ n c node chunk,
        nodes !! n = Some node → chunks_of env node !! c = Some chunk →
        ∃ r1 r2,
          index w1 !! vector_id pdf_id n c = Some r1 ∧
          index w2 !! vector_id pdf_id n c = Some r2 ∧
          vec_id r1 = vector_id pdf_id n c ∧
          vec_id r2 = vector_id pdf_id n c ∧
          vec_metadata r1 =
            chunk_metadata_of pdf_id n c
              (json_dumps env (node_info (node_page_num node)
                                 (node_image_path node) chunk)) ∧
          vec_metadata r2 = vec_metadata r1) ∧
     (∀ id, id ∈ dom (index w1) ↔
            id ∈ dom (index w0) ∨ is_site_id env pdf_id nodes id) ∧
     dom (index w2) = dom (index w1) ∧ size (index w2) = size (index w1) ∧
     (index w0 = ∅ →
      size (index w1) = length (document_chunks env nodes) ∧
      size (index w2) = length (document_chunks env nodes))).
Proof.
  split; [|split].
  - intros. split; [|by intros [= -> -> ->]].
    by intros (-> & -> & ->)%vector_id_inj.
  - intros. unfold store_batch; simpl. rewrite !insert_insert_eq.
    split; [done|]. by rewrite insert_empty, map_size_singleton.
  - intros nodes pdf_id w0 w1 w2 Hrun1 Hrun2.
    assert (dom (index w2) = dom (index w1)) as Hdom.
    { apply set_eq. intros id.
      rewrite (process_nodes_and_store_dom env pdf_id nodes w1 w2 Hrun2 id),
        !(process_nodes_and_store_dom env pdf_id nodes w0 w1 Hrun1 id).
      tauto. }
    assert (size (index w2) = size (index w1)) as Hsize
      by by rewrite <-!size_dom, Hdom.
    split; [|split; [|split; [done|split; [done|]]]].
    + intros n c node chunk Hn Hc.
      destruct (returned_run_stores_chunk env pdf_id nodes w0 w1 n c node chunk
                  Hrun1 Hn Hc) as (r1 & Hr1 & Hid1 & Hmd1).
      destruct (returned_run_stores_chunk env pdf_id nodes w1 w2 n c node chunk
                  Hrun2 Hn Hc) as (r2 & Hr2 & Hid2 & Hmd2).
      exists r1, r2. do 5 (split; [done|]). by rewrite Hmd1, Hmd2.
    + apply (process_nodes_and_store_dom env pdf_id nodes w0 w1 Hrun1).
    + intros Hempty.
      pose proof (fresh_index_size env pdf_id nodes w0 w1 Hempty Hrun1) as H1.
      split; [done|]. by rewrite Hsize.
Qed.

(** C6 (write-read round trip).  Provided [json.loads] gives back the
    node_info dictionaries that [json.dumps] printed for the chunks of the
    document, every record handed to the index by a run belongs to a chunk
    of a node, and formatting a match that carries the record's metadata
    yields the passed score, the document id, the chunk index, the node's
    page_num and image_path (the empty string where the node has none) and
    the chunk itself as content. *)
Theorem stored_metadata_rebuilds_search_result (env : Env)
    (nodes : list DocumentNode) (pdf_id : string) (w0 w' : World)
    (res : exn + unit) (evs : list Event)
    (vectors : list VectorRecord) (reply : upsert_reply) (r : VectorRecord) :
  (∀ node chunk, node ∈ nodes → chunk ∈ chunks_of env node →
     json_loads env (json_dumps env (node_info (node_page_num node)
                                       (node_image_path node) chunk))
       = Some (node_info (node_page_num node) (node_image_path node) chunk)) →
  process_nodes_and_store env nodes pdf_id w0 = (res, w') →
  trace w' = trace w0 ++ evs →
  EvUpsert vectors reply ∈ evs →
  r ∈ vectors →
  ∃ n c node chunk,
    nodes !! n = Some node ∧ chunks_of env node !! c = Some chunk ∧
    vec_id r = vector_id pdf_id n c ∧
    ∀ score,
      format_match env (mkMatch score (vec_metadata r)) =
        inr (mkResult score (PStr pdf_id) (PInt (Z.of_nat c))
               (from_option PInt (PStr "") (node_page_num node))
               (from_option PStr (PStr "") (node_image_path node))
               (PStr chunk)).
Proof.
  intros Hjson Hrun Htr Hev Hr.
  pose proof (upsert_batches_elem _ _ _ _ Hev Hr) as Hin.
  assert (∃ n c, made_at env pdf_id nodes n c r) as (n & c & Hmade).
  { pose proof (process_nodes_and_store_spec env pdf_id nodes w0) as H.
    rewrite Hrun in H. destruct res as [e|[]].
    - destruct H as (evs' & bad & Hab).
      rewrite (ab_trace _ _ _ _ _ _ _ _ Hab) in Htr.
      apply (inj (app _)) in Htr as <-.
      by apply (ab_made _ _ _ _ _ _ _ _ Hab).
    - destruct H as (vs & evs' & Hinv & _).
      rewrite (inv_trace _ _ _ _ _ _ _ _ _ Hinv) in Htr.
      apply (inj (app _)) in Htr as <-.
      destruct (inv_made _ _ _ _ _ _ _ _ _ Hinv r) as (n & c & _ & Hm); [|eauto].
      unfold records_of. apply elem_of_app. by right. }
  destruct Hmade as (node & chunk & Hn & Hc & Hid & Hmd).
  exists n, c, node, chunk. repeat split; try done.
  intros score. eapply format_match_made; [|done].
  apply Hjson; by eapply list_elem_of_lookup_2.
Qed.

(** * The claims on concrete inputs *)

Lemma second_node_flushes_first_again_demo :
  ∃ w' evs r1 r2,
    process_nodes_and_store Demo.quiet [Demo.node_a; Demo.node_b] "doc"
      Demo.empty_world = (inr tt, w') ∧
    trace w' = trace Demo.empty_world ++ evs ∧
    embedded_texts evs = ["a"; "b"] ∧
    upsert_batches evs = [[r1]; [r1; r2]] ∧
    vec_id r1 = vector_id "doc" 0 0 ∧
    vec_id r2 = vector_id "doc" 1 0 ∧
    length (upsert_batches evs) = 2 ∧ ceil_div 2 batch_size = 1.
Proof.
  apply (second_node_flushes_first_again Demo.quiet Demo.node_a Demo.node_b
           "a" "b" "doc" Demo.empty_world).
  - reflexivity.
  - reflexivity.
  - intros tr text Hin. exists [1%float].
    apply elem_of_cons in Hin as [->|Hin]; [reflexivity|].
    apply list_elem_of_singleton in Hin as ->. reflexivity.
  - intros tr vectors. reflexivity.
Defined.

Lemma chunkless_nodes_leave_world_unchanged_demo :
  process_nodes_and_store Demo.quiet
    [Demo.node_without_content; Demo.node_empty_content] "doc"
    Demo.empty_world = (inr tt, Demo.empty_world).
Proof.
  apply (chunkless_nodes_leave_world_unchanged Demo.quiet).
  - reflexivity.
  - constructor; [left; reflexivity|].
    constructor; [right; reflexivity|constructor].
Defined.

Lemma malformed_metadata_falls_back_demo :
  let env := Demo.env "!" None [Demo.good_match; Demo.malformed_match] in
  let fallback :=
    mkResult 0.75 (PStr "doc1") (PInt 0) (PStr "") (PStr "") (PStr "{bad") in
  ∃ results w',
    search_similar env "what is X?" 5 None Demo.empty_world = (inr results, w') ∧
    format_match env Demo.malformed_match = inr fallback ∧
    results !! 1 = Some fallback.
Proof.
  intros env fallback.
  run_search (search_similar env "what is X?" 5 None Demo.empty_world)
    ltac:(fun rs w =>
      exists rs, w; split; [vm_compute; reflexivity|];
      apply (malformed_metadata_falls_back env "what is X?" 5 None
               Demo.empty_world w rs [1%float]
               [Demo.good_match; Demo.malformed_match] 1
               Demo.malformed_match "{bad"));
    vm_compute; reflexivity.
Defined.

Lemma search_similar_top_k_demo :
  let env := Demo.env "!" None [Demo.good_match; Demo.malformed_match] in
  ∃ results w',
    search_similar env "what is X?" 5 None Demo.empty_world = (inr results, w') ∧
    (Z.of_nat (length results) ≤ 5)%Z ∧
    nonincreasing (res_score <$> results) = true ∧
    ∃ emb ms,
      last (trace w') = Some (EvQuery emb 5 None (inr ms)) ∧
      Forall2 (λ m r, res_score r = match_score m ∧
                      res_pdf_id r = meta_get (match_metadata m) "pdf_id" PNone ∧
                      res_chunk_index r = meta_get (match_metadata m) "chunk_index" PNone)
        ms results.
Proof.
  intros env.
  run_search (search_similar env "what is X?" 5 None Demo.empty_world)
    ltac:(fun rs w =>
      exists rs, w; split; [vm_compute; reflexivity|];
      apply (search_similar_top_k env "what is X?" 5 None Demo.empty_world w rs)).
  - intros tr idx v ms [= <-]. split; [vm_compute; discriminate|reflexivity].
  - vm_compute; reflexivity.
Defined.

Lemma non_object_metadata_fails_search_demo :
  let env := Demo.env "!" None [Demo.good_match; Demo.null_match] in
  format_match env Demo.null_match = inl AttributeError ∧
  ∃ e, (search_similar env "what is X?" 5 None Demo.empty_world).1 = inl e ∧
       (e = AttributeError ∨ e = TypeError).
Proof.
  intros env.
  apply (non_object_metadata_fails_search env "what is X?" 5 None
           Demo.empty_world [1%float] [Demo.good_match; Demo.null_match]
           Demo.null_match "null" PNone).
  - reflexivity.
  - reflexivity.
  - right. left.
  - reflexivity.
  - reflexivity.
  - reflexivity.
Defined.

(** The run over [node_a; node_bang] stops at the embedding of the chunk of
    node 1. *)
Lemma indexing_aborts_at_first_failure_demo :
  let run := process_nodes_and_store Demo.quiet [Demo.node_a; Demo.node_bang] "doc" in
  let w' := (run Demo.empty_world).2 in
  (run Demo.empty_world).1 = inl Demo.unavailable ∧
  ∃ evs bad,
    trace w' = trace Demo.empty_world ++ evs ++ [bad] ∧
    Forall (λ ev, event_error ev = None) evs ∧
    event_error bad = Some Demo.unavailable ∧
    (∀ r, r ∈ concat (upsert_batches evs) → index w' !! vec_id r = Some r) ∧
    (∀ w'', run w' = (inr tt, w'') →
       ∀ id, id ∈ dom (index w'') ↔
             id ∈ dom (index Demo.empty_world) ∨
             is_site_id Demo.quiet "doc" [Demo.node_a; Demo.node_bang] id).
Proof.
  intros run w'. split; [vm_compute; reflexivity|].
  apply (indexing_aborts_at_first_failure Demo.quiet
           [Demo.node_a; Demo.node_bang] "doc" Demo.empty_world w'
           Demo.unavailable).
  vm_compute; reflexivity.
Defined.

Lemma vector_id_unique_and_reindex_idempotent_demo :
  let nodes := [Demo.node_a; Demo.node_b] in
  let run := process_nodes_and_store Demo.quiet nodes "doc" in
  let w1 := (run Demo.empty_world).2 in
  let w2 := (run w1).2 in
  run Demo.empty_world = (inr tt, w1) ∧ run w1 = (inr tt, w2) ∧
  (∀ n c node chunk,
     nodes !! n = Some node → chunks_of Demo.quiet node !! c = Some chunk →
     ∃ r1 r2,
       index w1 !! vector_id "doc" n c = Some r1 ∧
       index w2 !! vector_id "doc" n c = Some r2 ∧
       vec_id r1 = vector_id "doc" n c ∧
       vec_id r2 = vector_id "doc" n c ∧
       vec_metadata r1 =
         chunk_metadata_of "doc" n c
           (json_dumps Demo.quiet (node_info (node_page_num node)
                                     (node_image_path node) chunk)) ∧
       vec_metadata r2 = vec_metadata r1) ∧
  (∀ id, id ∈ dom (index w1) ↔
         id ∈ dom (index Demo.empty_world) ∨ is_site_id Demo.quiet "doc" nodes id) ∧
  dom (index w2) = dom (index w1) ∧ size (index w2) = size (index w1) ∧
  (index Demo.empty_world = ∅ →
   size (index w1) = length (document_chunks Demo.quiet nodes) ∧
   size (index w2) = length (document_chunks Demo.quiet nodes)).
Proof.
  intros nodes run w1 w2.
  assert (run Demo.empty_world = (inr tt, w1)) as H1 by (vm_compute; reflexivity).
  assert (run w1 = (inr tt, w2)) as H2 by (vm_compute; reflexivity).
  split; [exact H1|]. split; [exact H2|].
  exact (proj2 (proj2 (vector_id_unique_and_reindex_idempotent Demo.quiet))
           nodes "doc" Demo.empty_world w1 w2 H1 H2).
Defined.

Lemma stored_metadata_rebuilds_search_result_demo :
  let nodes := [Demo.node_a; Demo.node_b] in
  let run := process_nodes_and_store Demo.quiet nodes "doc" Demo.empty_world in
  ∃ evs vectors reply r,
    trace run.2 = trace Demo.empty_world ++ evs ∧
    EvUpsert vectors reply ∈ evs ∧ vectors !! 1 = Some r ∧
    ∃ n c node chunk,
      nodes !! n = Some node ∧ chunks_of Demo.quiet node !! c = Some chunk ∧
      vec_id r = vector_id "doc" n c ∧
      ∀ score,
        format_match Demo.quiet (mkMatch score (vec_metadata r)) =
          inr (mkResult score (PStr "doc") (PInt (Z.of_nat c))
                 (from_option PInt (PStr "") (node_page_num node))
                 (from_option PStr (PStr "") (node_image_path node))
                 (PStr chunk)).
Proof.
  intros nodes run.
  let evs := eval vm_compute in (trace run.2) in
  lazymatch evs with
  | [_; _; _; EvUpsert ?vectors ?reply] =>
      lazymatch vectors with
      | [_; ?r] =>
          exists evs, vectors, reply, r;
          split; [vm_compute; reflexivity|];
          split; [do 3 right; left|]; split; [reflexivity|];
          apply (stored_metadata_rebuilds_search_result Demo.quiet nodes "doc"
                   Demo.empty_world run.2 run.1 evs vectors reply r)
      end
  end.
  - intros node chunk Hnode Hchunk.
    apply elem_of_cons in Hnode as [->|Hnode];
      [|apply list_elem_of_singleton in Hnode as ->];
      apply list_elem_of_singleton in Hchunk as ->; reflexivity.
  - apply surjective_pairing.
  - vm_compute; reflexivity.
  - do 3 right; left.
  - right; left.
Defined.

(** A rejected upsert: the index refuses the second call, the run raises
    the client's exception, and the record of the first batch stays. *)
Example rejected_upsert_keeps_first_batch :
  let run :=
    process_nodes_and_store (Demo.env "!" (Some 1) [])
      [Demo.node_a; Demo.node_b] "doc" Demo.empty_world in
  run.1 = inl Demo.unavailable ∧
  length <$> upsert_batches (trace run.2) = [1; 2] ∧
  is_Some (index run.2 !! "doc_node0_chunk0") ∧
  index run.2 !! "doc_node1_chunk0" = None.
Proof.
  intros run. split; [vm_compute; reflexivity|].
  split; [vm_compute; reflexivity|].
  split; [vm_compute; eauto|vm_compute; reflexivity].
Qed.

(** C4, the claim as stated, refuted.  The embedder fails on the text "!".
    In the first run that text is chunk 0 of node 0, in the second run it is
    chunk 0 of node 1 (the trace shows the chunk of node 0 embedded and
    upserted before).  Both runs surface the very same exception, the one the
    embedding client raised, so nothing in the surfaced error tells the two
    places apart. *)
Lemma surfaced_error_has_no_site :
  let run nodes := process_nodes_and_store Demo.quiet nodes "doc" Demo.empty_world in
  let first := run [Demo.node_bang] in
  let second := run [Demo.node_a; Demo.node_bang] in
  first.1 = inl Demo.unavailable ∧
  embedded_texts (trace first.2) = ["!"] ∧
  second.1 = inl Demo.unavailable ∧
  embedded_texts (trace second.2) = ["a"; "!"] ∧
  length (upsert_batches (trace second.2)) = 1 ∧
  ¬ ∃ site_of : exn → nat * nat,
      (∀ e, first.1 = inl e → site_of e = (0, 0)) ∧
      (∀ e, second.1 = inl e → site_of e = (1, 0)).
Proof.
  intros run first second.
  assert (first.1 = inl Demo.unavailable) as H1 by (vm_compute; reflexivity).
  assert (second.1 = inl Demo.unavailable) as H2 by (vm_compute; reflexivity).
  split; [exact H1|]. split; [vm_compute; reflexivity|].
  split; [exact H2|]. split; [vm_compute; reflexivity|].
  split; [vm_compute; reflexivity|].
  intros (site_of & Hfirst & Hsecond).
  specialize (Hfirst _ H1). specialize (Hsecond _ H2). congruence.
Qed.

(** * The write path seen from its trace *)

Lemma replay_app evs1 evs2 idx :
  replay (evs1 ++ evs2) idx = replay evs2 (replay evs1 idx).
Proof. apply foldl_app. Qed.

Lemma store_batch_lookup_inv b m id r :
  store_batch b m !! id = Some r → m !! id = Some r ∨ r ∈ b.
Proof.
  revert m. induction b as [|r' b IH]; intros m; [by left|].
  rewrite store_batch_cons. intros [Hm|Hb]%IH; [|by right; right].
  destruct (decide (vec_id r' = id)) as [<-|Hne].
  - rewrite lookup_insert_eq in Hm. injection Hm as ->. right; left.
  - rewrite lookup_insert_ne in Hm by done. by left.
Qed.

Lemma store_batch_lookup_other b m id :
  id ∉ vec_id <$> b → store_batch b m !! id = m !! id.
Proof.
  revert m. induction b as [|r b IH]; intros m Hid; [done|].
  rewrite fmap_cons, not_elem_of_cons in Hid. destruct Hid as [Hne Hid].
  rewrite store_batch_cons, IH by done. by rewrite lookup_insert_ne.
Qed.

Lemma replay_lookup_inv evs idx id r :
  replay evs idx !! id = Some r →
  idx !! id = Some r ∨ r ∈ concat (upsert_batches evs).
Proof.
  revert idx. induction evs as [|ev evs IH]; intros idx; [by left|].
  change (replay (ev :: evs) idx) with (replay evs (apply_event idx ev)).
  intros [Hidx|Hin]%IH.
  - destruct ev as [| vectors [|e applied] | | |]; simpl in *; auto.
    + apply store_batch_lookup_inv in Hidx as [?|?]; [by left|right].
      apply elem_of_app. by left.
    + apply store_batch_lookup_inv in Hidx as [?|?%subseteq_take]; [by left|right].
      apply elem_of_app. by left.
  - right. destruct ev; simpl; try done. apply elem_of_app. by right.
Qed.

Lemma replay_lookup_other evs idx id :
  id ∉ vec_id <$> concat (upsert_batches evs) →
  replay evs idx !! id = idx !! id.
Proof.
  revert idx. induction evs as [|ev evs IH]; intros idx Hid; [done|].
  change (replay (ev :: evs) idx) with (replay evs (apply_event idx ev)).
  destruct ev as [| vectors reply | | |]; simpl in *; try by apply IH.
  rewrite fmap_app, not_elem_of_app in Hid. destruct Hid as [Hv Hrest].
  rewrite IH by done.
  destruct reply; apply store_batch_lookup_other; [done|].
  intros (r & -> & Hr%subseteq_take)%list_elem_of_fmap.
  apply Hv, list_elem_of_fmap. eauto.
Qed.

Lemma cooldown_ok_app evs evs' :
  cooldown_ok evs = true → cooldown_ok (evs ++ evs') = cooldown_ok evs'.
Proof.
  remember (length evs) as n eqn:Hn. revert evs Hn.
  induction (lt_wf n) as [n _ IH]; intros evs -> Hok.
  destruct evs as [|ev evs]; [done|].
  destruct ev as [| vectors [|e applied] | | |]; simpl in *; try done.
  all: try (eapply IH; [|done|done]; simpl; lia).
  case_decide; [|eapply IH; [|done|done]; simpl; lia].
  destruct evs as [|[] evs]; simpl in *; try done.
  eapply IH; [|done|done]. simpl; lia.
Qed.

(** From the checker to positions in the trace. *)
Lemma cooldown_ok_after_full evs i vectors :
  cooldown_ok evs = true →
  evs !! i = Some (EvUpsert vectors Accepted) →
  length vectors = batch_size →
  evs !! S i = Some EvSleep.
Proof.
  remember (length evs) as n eqn:Hn. revert evs i Hn.
  induction (lt_wf n) as [n _ IH]; intros evs i -> Hok Hi Hfull.
  destruct evs as [|ev evs]; [done|].
  destruct i as [|i].
  - simpl in Hi. injection Hi as ->. simpl in Hok.
    rewrite decide_True in Hok by done.
    by destruct evs as [|[] evs].
  - simpl in Hi. simpl.
    destruct ev as [| vs [|e applied] | | |]; simpl in Hok; try done.
    all: try (eapply (IH (length evs)); [simpl; lia|done|done|done|done]).
    case_decide; [|eapply (IH (length evs)); [simpl; lia|done|done|done|done]].
    destruct evs as [|[] evs]; try done.
    destruct i as [|i]; [done|]. simpl in Hi. simpl.
    eapply (IH (length evs)); [simpl; lia|done|done|done|done].
Qed.

Lemma cooldown_ok_before_sleep evs i :
  cooldown_ok evs = true →
  evs !! i = Some EvSleep →
  ∃ j vectors, i = S j ∧ evs !! j = Some (EvUpsert vectors Accepted) ∧
               length vectors = batch_size.
Proof.
  remember (length evs) as n eqn:Hn. revert evs i Hn.
  induction (lt_wf n) as [n _ IH]; intros evs i -> Hok Hi.
  destruct evs as [|ev evs]; [done|].
  assert (∀ rest k, length rest < length (ev :: evs) →
            cooldown_ok rest = true → rest !! k = Some EvSleep →
            ∃ j vectors, k = S j ∧ rest !! j = Some (EvUpsert vectors Accepted) ∧
                         length vectors = batch_size) as IH'.
  { intros rest k Hlen ? ?. by eapply (IH (length rest)). }
  destruct i as [|i].
  { simpl in Hi. injection Hi as ->. done. }
  simpl in Hi.
  assert (cooldown_ok evs = true →
          ∃ j vectors, S i = S j ∧ (ev :: evs) !! j = Some (EvUpsert vectors Accepted) ∧
                       length vectors = batch_size) as Hrest.
  { intros Hok'. destruct (IH' evs i) as (j & vs & -> & Hj & Hlen);
      [simpl; lia|done|done|].
    exists (S j), vs. done. }
  destruct ev as [| vs [|e applied] | | |]; simpl in Hok; try done.
  all: try by apply Hrest.
  case_decide as Hfull; [|by apply Hrest].
  destruct evs as [|[] evs]; try done.
  destruct i as [|i]; [by exists 0, vs|].
  simpl in Hi.
  destruct (IH' evs i) as (j & vs' & -> & Hj & Hlen); [simpl; lia|done|done|].
  exists (S (S j)), vs'. done.
Qed.

Lemma write_facts_refl w : write_facts w w [].
Proof. split; simpl; try done. by rewrite app_nil_r. Qed.

Lemma write_facts_trans w0 w1 w2 evs1 evs2 :
  write_facts w0 w1 evs1 → write_facts w1 w2 evs2 →
  write_facts w0 w2 (evs1 ++ evs2).
Proof.
  intros [Ht1 Hi1 Hs1 Hc1 He1] [Ht2 Hi2 Hs2 Hc2 He2]. split.
  - by rewrite Ht2, Ht1, app_assoc.
  - by rewrite Hi2, Hi1, replay_app.
  - rewrite upsert_batches_app. by apply Forall_app.
  - by rewrite cooldown_ok_app.
  - by apply Forall_app.
Qed.

Section WriteFacts.
Context (env : Env) (pdf_id : string).

Lemma write_facts_embed text reply w :
  write_facts w (log_event (EvEmbed text Passage reply) w)
    [EvEmbed text Passage reply].
Proof. split; simpl; try done. by repeat constructor. Qed.

(** The full-batch flush with its sleep. *)
Lemma write_facts_full_flush vectors w :
  length vectors = batch_size →
  write_facts w
    (log_event EvSleep
       (mkWorld (trace w ++ [EvUpsert vectors Accepted])
          (store_batch vectors (index w))))
    [EvUpsert vectors Accepted; EvSleep].
Proof.
  intros Hlen. split; simpl.
  - by rewrite <-app_assoc.
  - done.
  - constructor; [unfold batch_size in *; lia|constructor].
  - by rewrite decide_True.
  - by repeat constructor.
Qed.

Lemma write_facts_last_flush vectors w :
  0 < length vectors < batch_size →
  write_facts w
    (mkWorld (trace w ++ [EvUpsert vectors Accepted])
       (store_batch vectors (index w)))
    [EvUpsert vectors Accepted].
Proof.
  intros Hlen. split; simpl; try done.
  - constructor; [unfold batch_size in *; lia|constructor].
  - rewrite decide_False by lia. done.
  - by repeat constructor.
Qed.

Lemma write_facts_rejected vectors w e applied :
  0 < length vectors ≤ batch_size →
  write_facts w
    (mkWorld (trace w ++ [EvUpsert vectors (Rejected e applied)])
       (store_batch (take applied vectors) (index w)))
    [EvUpsert vectors (Rejected e applied)].
Proof.
  intros Hlen. split; simpl; try done.
  - constructor; [unfold batch_size in *; lia|constructor].
  - by repeat constructor.
Qed.

Lemma chunk_loop_facts n page_num image_path chunks :
  ∀ c vectors w res w',
    length vectors < batch_size →
    chunk_loop env pdf_id n page_num image_path c chunks vectors w = (res, w') →
    ∃ evs k,
      write_facts w w' evs ∧
      k ≤ length chunks ∧
      embedded_texts evs = take k chunks ∧
      match res with
      | inr vectors' => length vectors' < batch_size ∧ k = length chunks
      | inl _ => True
      end.
Proof.
  induction chunks as [|chunk chunks IH]; intros c vectors w res w' Hlen Hrun.
  { injection Hrun as <- <-. exists [], 0. simpl.
    split; [apply write_facts_refl|]. done. }
  cbn [chunk_loop] in Hrun. unfold bind at 1 in Hrun.
  rewrite create_embedding_run in Hrun.
  destruct (embeddings_create env (trace w) chunk Passage) as [e|emb] eqn:Hemb.
  { injection Hrun as <- <-. exists [EvEmbed chunk Passage (inl e)], 1. simpl.
    split; [apply write_facts_embed|]. split; [lia|]. by rewrite take_0. }
  set (r := mkVector _ _ _) in Hrun. set (w1 := log_event _ w) in Hrun.
  assert (write_facts w w1 [EvEmbed chunk Passage (inr emb)]) as Hw1
    by apply write_facts_embed.
  assert (length (vectors ++ [r]) = S (length vectors)) as Hlen1
    by (rewrite length_app; simpl; lia).
  unfold bind at 1 in Hrun. case_decide as Hfull.
  - assert (length (vectors ++ [r]) = batch_size) as Hexact by lia.
    unfold bind at 1 in Hrun.
    destruct (index_upsert env (trace w1) (vectors ++ [r])) as [|e applied] eqn:Hup.
    + rewrite (upsert_accepted env _ _ Hup) in Hrun.
      unfold bind at 1 in Hrun. unfold sleep at 1 in Hrun. unfold ret at 1 in Hrun.
      apply IH in Hrun as (evs & k & Hf & Hk & Hemb' & Hres);
        [|unfold batch_size; simpl; lia].
      exists ([EvEmbed chunk Passage (inr emb)] ++
              [EvUpsert (vectors ++ [r]) Accepted; EvSleep] ++ evs), (S k).
      split; [|split; [simpl; lia|split]].
      * eapply write_facts_trans; [exact Hw1|].
        eapply write_facts_trans; [|exact Hf].
        by refine (write_facts_full_flush (vectors ++ [r]) w1 _).
      * simpl. by rewrite Hemb'.
      * destruct res; [done|]. destruct Hres as [? ->]. done.
    + rewrite (upsert_rejected env _ _ _ _ Hup) in Hrun. injection Hrun as <- <-.
      exists ([EvEmbed chunk Passage (inr emb)] ++
              [EvUpsert (vectors ++ [r]) (Rejected e applied)]), 1.
      split; [|split; [simpl; lia|split; [simpl; by rewrite take_0|done]]].
      eapply write_facts_trans; [exact Hw1|].
      refine (write_facts_rejected (vectors ++ [r]) w1 e applied _). lia.
  - unfold ret at 1 in Hrun.
    apply IH in Hrun as (evs & k & Hf & Hk & Hemb' & Hres); [|lia].
    exists ([EvEmbed chunk Passage (inr emb)] ++ evs), (S k).
    split; [|split; [simpl; lia|split]].
    * eapply write_facts_trans; [exact Hw1|exact Hf].
    * simpl. by rewrite Hemb'.
    * destruct res; [done|]. destruct Hres as [? ->]. done.
Qed.

Lemma node_loop_facts nodes :
  ∀ n vectors w res w',
    length vectors < batch_size →
    node_loop env pdf_id n nodes vectors w = (res, w') →
    ∃ evs k,
      write_facts w w' evs ∧
      k ≤ length (document_chunks env nodes) ∧
      embedded_texts evs = take k (document_chunks env nodes) ∧
      match res with
      | inr _ => k = length (document_chunks env nodes)
      | inl _ => True
      end.
Proof.
  induction nodes as [|node nodes IH]; intros n vectors w res w' Hlen Hrun.
  { injection Hrun as <- <-. exists [], 0. simpl.
    split; [apply write_facts_refl|]. done. }
  cbn [node_loop] in Hrun. fold (chunks_of env node) in Hrun.
  unfold document_chunks. rewrite fmap_cons. cbn [concat].
  fold (document_chunks env nodes).
  unfold bind at 1 in Hrun.
  destruct (chunk_loop _ _ _ _ _ _ _ _ w) as [[e|vectors'] w1] eqn:Hchunks;
    apply chunk_loop_facts in Hchunks as (evs1 & k1 & Hf1 & Hk1 & Hemb1 & Hres1);
    try done.
  { injection Hrun as <- <-. exists evs1, k1. split; [done|].
    split; [rewrite length_app; lia|]. split; [|done].
    by rewrite take_app_le. }
  destruct Hres1 as [Hlen' ->]. rewrite firstn_all in Hemb1.
  assert (∀ w2 evs2,
    write_facts w1 w2 evs2 → embedded_texts evs2 = [] →
    node_loop env pdf_id (S n) nodes vectors' w2 = (res, w') →
    ∃ evs k,
      write_facts w w' evs ∧
      k ≤ length (chunks_of env node ++ document_chunks env nodes) ∧
      embedded_texts evs = take k (chunks_of env node ++ document_chunks env nodes) ∧
      match res with
      | inr _ => k = length (chunks_of env node ++ document_chunks env nodes)
      | inl _ => True
      end) as Hnext.
  { intros w2 evs2 Hf2 Hemb2 Hrest.
    apply IH in Hrest as (evs3 & k3 & Hf3 & Hk3 & Hemb3 & Hres3); [|done].
    exists (evs1 ++ evs2 ++ evs3), (length (chunks_of env node) + k3).
    split; [|split; [rewrite length_app; lia|split]].
    - eapply write_facts_trans; [exact Hf1|].
      eapply write_facts_trans; [exact Hf2|exact Hf3].
    - rewrite !embedded_texts_app, Hemb1, Hemb2, Hemb3. simpl.
      by rewrite take_app_add.
    - destruct res; [done|]. rewrite length_app. lia. }
  unfold bind at 1 in Hrun. destruct vectors' as [|r vectors'].
  { unfold ret at 1 in Hrun. apply (Hnext w1 []); [apply write_facts_refl|done..]. }
  destruct (index_upsert env (trace w1) (r :: vectors')) as [|e applied] eqn:Hup.
  - rewrite (upsert_accepted env _ _ Hup) in Hrun.
    eapply (Hnext _ [EvUpsert (r :: vectors') Accepted]); [|done..].
    refine (write_facts_last_flush (r :: vectors') w1 _). simpl in *. lia.
  - rewrite (upsert_rejected env _ _ _ _ Hup) in Hrun. injection Hrun as <- <-.
    exists (evs1 ++ [EvUpsert (r :: vectors') (Rejected e applied)]),
      (length (chunks_of env node)).
    split; [|split; [rewrite length_app; lia|split; [|done]]].
    + eapply write_facts_trans; [exact Hf1|].
      refine (write_facts_rejected (r :: vectors') w1 e applied _).
      simpl in *. lia.
    + rewrite embedded_texts_app, Hemb1. simpl.
      by rewrite app_nil_r, take_app_length.
Qed.

(** Whatever the outcome of a run, its events obey [write_facts], and the
    texts it embedded are the chunks of the document from the first on, all
    of them when the run returned. *)
Lemma process_nodes_and_store_facts nodes w0 res w' :
  process_nodes_and_store env nodes pdf_id w0 = (res, w') →
  ∃ evs k,
    write_facts w0 w' evs ∧
    embedded_texts evs = take k (document_chunks env nodes) ∧
    match res with
    | inr _ => embedded_texts evs = document_chunks env nodes
    | inl _ => True
    end.
Proof.
  unfold process_nodes_and_store, log_and_reraise, bind, ret. intros Hrun.
  destruct (node_loop env pdf_id 0 nodes [] w0) as [[e|vectors] w1] eqn:Hloop;
    apply node_loop_facts in Hloop as (evs & k & Hf & Hk & Hemb & Hres);
    try (unfold batch_size; simpl; lia);
    injection Hrun as <- <-; exists evs, k; (split; [done|]); (split; [done|]);
    [done|].
  rewrite Hemb, Hres. apply firstn_all.
Qed.

End WriteFacts.

(** * The write path: further properties *)

(** Every record handed to the index in a run belongs to a chunk of the
    document. *)
Lemma process_batches_made env nodes pdf_id w0 res w' evs r :
  process_nodes_and_store env nodes pdf_id w0 = (res, w') →
  trace w' = trace w0 ++ evs →
  r ∈ concat (upsert_batches evs) →
  ∃ n c, made_at env pdf_id nodes n c r.
Proof.
  intros Hrun Htr Hin.
  pose proof (process_nodes_and_store_spec env pdf_id nodes w0) as H.
  rewrite Hrun in H. destruct res as [e|[]].
  - destruct H as (evs' & bad & Hab).
    rewrite (ab_trace _ _ _ _ _ _ _ _ Hab) in Htr.
    apply (inj (app _)) in Htr as <-.
    by apply (ab_made _ _ _ _ _ _ _ _ Hab).
  - destruct H as (vs & evs' & Hinv & _).
    rewrite (inv_trace _ _ _ _ _ _ _ _ _ Hinv) in Htr.
    apply (inj (app _)) in Htr as <-.
    destruct (inv_made _ _ _ _ _ _ _ _ _ Hinv r) as (n & c & _ & Hm); [|eauto].
    unfold records_of. apply elem_of_app. by right.
Qed.

(** Batch limit.  Whatever the outcome of a run, every batch it hands to
    [index.upsert] holds at least one and at most 50 records. *)
Theorem upsert_batches_within_limit (env : Env) (nodes : list DocumentNode)
    (pdf_id : string) (w0 : World) :
  ∃ evs,
    trace (process_nodes_and_store env nodes pdf_id w0).2 = trace w0 ++ evs ∧
    Forall (λ batch, 0 < length batch ≤ 50) (upsert_batches evs).
Proof.
  destruct (process_nodes_and_store env nodes pdf_id w0) as [res w'] eqn:Hrun.
  apply process_nodes_and_store_facts in Hrun as (evs & k & Hf & _).
  exists evs. split; [apply (wf_trace _ _ _ Hf)|apply (wf_sizes _ _ _ Hf)].
Qed.

(** Cooldown.  In the events of a run, whatever its outcome, an accepted
    upsert of 50 records is followed at once by the sleep, and a sleep
    stands nowhere else: not at the start, not after a smaller batch, not
    after a rejected one. *)
Theorem cooldown_follows_full_batches (env : Env) (nodes : list DocumentNode)
    (pdf_id : string) (w0 : World) :
  ∃ evs,
    trace (process_nodes_and_store env nodes pdf_id w0).2 = trace w0 ++ evs ∧
    (∀ i vectors, evs !! i = Some (EvUpsert vectors Accepted) →
       length vectors = 50 → evs !! S i = Some EvSleep) ∧
    (∀ i, evs !! i = Some EvSleep →
       ∃ j vectors, i = S j ∧ evs !! j = Some (EvUpsert vectors Accepted) ∧
                    length vectors = 50).
Proof.
  destruct (process_nodes_and_store env nodes pdf_id w0) as [res w'] eqn:Hrun.
  apply process_nodes_and_store_facts in Hrun as (evs & k & Hf & _).
  exists evs. split; [apply (wf_trace _ _ _ Hf)|].
  pose proof (wf_cooldown _ _ _ Hf) as Hok. split.
  - intros i vectors. by apply cooldown_ok_after_full.
  - intros i. by apply cooldown_ok_before_sleep.
Qed.

(** Embedding order.  The remote calls of a run are passage-mode embeddings,
    upserts and sleeps, nothing else.  The texts sent to the embedder are the
    chunks of the document in document order, each one once, from the first
    chunk up to the point the run reached: all of them when the run
    returned. *)
Theorem chunks_embedded_once_in_order (env : Env) (nodes : list DocumentNode)
    (pdf_id : string) (w0 : World) :
  ∃ evs k,
    trace (process_nodes_and_store env nodes pdf_id w0).2 = trace w0 ++ evs ∧
    Forall write_event evs ∧
    embedded_texts evs = take k (document_chunks env nodes) ∧
    match (process_nodes_and_store env nodes pdf_id w0).1 with
    | inr _ => embedded_texts evs = document_chunks env nodes
    | inl _ => True
    end.
Proof.
  destruct (process_nodes_and_store env nodes pdf_id w0) as [res w'] eqn:Hrun.
  apply process_nodes_and_store_facts in Hrun as (evs & k & Hf & Hemb & Hres).
  exists evs, k. split; [apply (wf_trace _ _ _ Hf)|].
  split; [apply (wf_events _ _ _ Hf)|]. done.
Qed.

(** Frame.  Whatever the outcome of a run for a document, a record stored
    under an id that is not an id of that document is left as it was; in
    particular every record of any other document id. *)
Theorem indexing_leaves_other_documents_alone (env : Env)
    (nodes : list DocumentNode) (pdf_id : string) (w0 w' : World)
    (res : exn + unit) :
  process_nodes_and_store env nodes pdf_id w0 = (res, w') →
  (∀ id, ¬ is_site_id env pdf_id nodes id → index w' !! id = index w0 !! id) ∧
  (∀ other n c, other ≠ pdf_id →
     index w' !! vector_id other n c = index w0 !! vector_id other n c).
Proof.
  intros Hrun.
  assert (∀ id, ¬ is_site_id env pdf_id nodes id →
            index w' !! id = index w0 !! id) as Hframe.
  { intros id Hid.
    destruct (process_nodes_and_store_facts env pdf_id nodes w0 res w' Hrun)
      as (evs & k & Hf & _).
    rewrite (wf_index _ _ _ Hf). apply replay_lookup_other.
    intros (r & -> & Hr)%list_elem_of_fmap. apply Hid.
    destruct (process_batches_made env nodes pdf_id w0 res w' evs r Hrun
                (wf_trace _ _ _ Hf) Hr) as (n & c & Hm).
    by eapply made_at_site_id. }
  split; [done|].
  intros other n c Hother. apply Hframe.
  intros (n' & c' & node & _ & _ & Heq). apply vector_id_inj in Heq. tauto.
Qed.

(** No deletion.  Whatever the outcome of a run, every id the index held
    before the run it still holds after it. *)
Theorem indexing_never_deletes (env : Env) (nodes : list DocumentNode)
    (pdf_id : string) (w0 w' : World) (res : exn + unit) (id : string) :
  process_nodes_and_store env nodes pdf_id w0 = (res, w') →
  is_Some (index w0 !! id) → is_Some (index w' !! id).
Proof.
  intros Hrun Hid. apply elem_of_dom. apply elem_of_dom in Hid.
  pose proof (process_nodes_and_store_spec env pdf_id nodes w0) as H.
  rewrite Hrun in H. destruct res as [e|[]].
  - destruct H as (evs & bad & Hab). by apply (ab_keep _ _ _ _ _ _ _ _ Hab).
  - destruct H as (vs & evs & Hinv & _).
    apply (inv_dom _ _ _ _ _ _ _ _ _ Hinv). by left.
Qed.


(** * The read path: further properties *)

Lemma formattable_spec env m :
  formattable env m = true ↔ ∃ r, format_match env m = inr r.
Proof.
  unfold formattable, format_match, parse_match, py_json_loads.
  destruct (meta_get _ "text" _) as [| | | |s| |]; simpl;
    try (split; [done|by intros [r [=]]]).
  destruct (json_loads env s) as [v|]; simpl; [|split; eauto].
  destruct v; simpl; try (split; [done|by intros [r [=]]]).
  split; eauto.
Qed.

Lemma format_results_all_formattable env ms acc :
  Forall (λ m, formattable env m = true) ms →
  ∃ rs, format_results env ms acc = inr (acc ++ rs) ∧ length rs = length ms.
Proof.
  intros Hall. revert acc. induction Hall as [|m ms Hm _ IH]; intros acc.
  { exists []. by rewrite app_nil_r. }
  apply formattable_spec in Hm as [r Hr]. simpl. rewrite Hr.
  destruct (IH (acc ++ [r])) as (rs & -> & Hlen).
  exists (r :: rs). rewrite <-app_assoc. split; [done|]. simpl. by rewrite Hlen.
Qed.

(** Read-only search.  Whatever its outcome, [search_similar] leaves the
    index as it was and makes at most two remote calls, a query-mode
    embedding and an index query: no upsert, no completion. *)
Theorem search_similar_is_read_only (env : Env) (query : string) (top_k : Z)
    (filter : option (gmap string pyval)) (w : World) :
  index (search_similar env query top_k filter w).2 = index w ∧
  ∃ evs,
    trace (search_similar env query top_k filter w).2 = trace w ++ evs ∧
    length evs ≤ 2 ∧ Forall read_event evs.
Proof.
  rewrite search_similar_unfold; simpl.
  destruct (embeddings_create env (trace w) query Query) as [e|emb]; simpl.
  { split; [done|]. eexists [_]. split; [done|]. split; [simpl; lia|].
    by repeat constructor. }
  destruct (index_query env _ _ emb top_k filter) as [e|ms]; simpl.
  - split; [done|]. eexists [_; _]. rewrite <-app_assoc.
    split; [done|]. split; [simpl; lia|]. by repeat constructor.
  - split; [done|]. eexists [_; _]. rewrite <-app_assoc.
    split; [done|]. split; [simpl; lia|]. by repeat constructor.
Qed.

(** Remote failures of a search.  When the query embedding fails, the
    exception is re-raised as it came and the index is not queried; when the
    index query fails, its exception is re-raised as it came. *)
Theorem search_similar_reraises_remote_failures (env : Env) (query : string)
    (top_k : Z) (filter : option (gmap string pyval)) (w : World) (e : exn) :
  (embeddings_create env (trace w) query Query = inl e →
   search_similar env query top_k filter w =
     (inl e, log_event (EvEmbed query Query (inl e)) w)) ∧
  (∀ emb,
     embeddings_create env (trace w) query Query = inr emb →
     index_query env (trace w ++ [EvEmbed query Query (inr emb)]) (index w)
       emb top_k filter = inl e →
     search_similar env query top_k filter w =
       (inl e, log_event (EvQuery emb top_k filter (inl e))
                 (log_event (EvEmbed query Query (inr emb)) w))).
Proof.
  split.
  - intros Hemb. rewrite search_similar_unfold; simpl. by rewrite Hemb.
  - intros emb Hemb Hq. rewrite search_similar_unfold; simpl.
    rewrite Hemb. simpl. by rewrite Hq.
Qed.

(** Non-string metadata.  A match whose metadata ["text"] is present but is
    not a string (a number, a boolean, a list) makes [json.loads] raise
    TypeError, which the handler does not catch: the search raises and
    returns nothing. *)
Theorem non_string_text_fails_search (env : Env) (query : string) (top_k : Z)
    (filter : option (gmap string pyval)) (w : World)
    (emb : list float) (ms : list Match) (m : Match) (v : pyval) :
  embeddings_create env (trace w) query Query = inr emb →
  index_query env (trace w ++ [EvEmbed query Query (inr emb)]) (index w)
    emb top_k filter = inr ms →
  m ∈ ms →
  match_metadata m !! "text" = Some v →
  (∀ s, v ≠ PStr s) →
  format_match env m = inl TypeError ∧
  ∃ e, (search_similar env query top_k filter w).1 = inl e.
Proof.
  intros Hemb Hq Hin Htext Hv.
  assert (format_match env m = inl TypeError) as Hm.
  { unfold format_match, parse_match, meta_get. rewrite Htext. simpl.
    destruct v; simpl; try done. by destruct (Hv s). }
  split; [done|].
  rewrite search_similar_unfold; simpl. rewrite Hemb. simpl. rewrite Hq.
  destruct (format_results_raises env ms [] m _ Hin Hm) as [e He].
  exists e. by rewrite He.
Qed.

(** Missing metadata text.  A match that has no ["text"] key at all is read
    as the empty object: given that ["{}"] parses to the empty object, it
    formats without raising, to a result with its score, pdf_id and
    chunk_index and with empty page_num, image_path and content. *)
Theorem missing_text_gives_empty_fields (env : Env) (query : string) (top_k : Z)
    (filter : option (gmap string pyval)) (w w' : World)
    (results : list SearchResult) (emb : list float) (ms : list Match)
    (i : nat) (m : Match) :
  json_loads env "{}" = Some (PDict []) →
  search_similar env query top_k filter w = (inr results, w') →
  last (trace w') = Some (EvQuery emb top_k filter (inr ms)) →
  ms !! i = Some m →
  match_metadata m !! "text" = None →
  results !! i =
    Some (mkResult (match_score m)
            (meta_get (match_metadata m) "pdf_id" PNone)
            (meta_get (match_metadata m) "chunk_index" PNone)
            (PStr "") (PStr "") (PStr "")).
Proof.
  intros Hjson Hrun Hlast Hi Htext.
  apply search_similar_inr in Hrun as (emb' & ms' & Htr & _ & _ & Hall).
  rewrite Htr, last_app_cons in Hlast. simpl in Hlast. simplify_eq.
  destruct (Forall2_lookup_l _ _ _ _ _ Hall Hi) as (r & -> & Hfm).
  unfold format_match, parse_match, meta_get in Hfm. rewrite Htext in Hfm.
  simpl in Hfm. rewrite Hjson in Hfm. simpl in Hfm. by injection Hfm as <-.
Qed.

(** When a search returns.  Once the embedding and the index query have
    succeeded, [search_similar] returns exactly when every match of the
    reply is formattable: its text a string (or missing) that does not parse
    or parses to an object.  It then returns one result per match. *)
Theorem search_returns_iff_all_formattable (env : Env) (query : string)
    (top_k : Z) (filter : option (gmap string pyval)) (w : World)
    (emb : list float) (ms : list Match) :
  embeddings_create env (trace w) query Query = inr emb →
  index_query env (trace w ++ [EvEmbed query Query (inr emb)]) (index w)
    emb top_k filter = inr ms →
  ((∃ results, (search_similar env query top_k filter w).1 = inr results) ↔
   Forall (λ m, formattable env m = true) ms) ∧
  (∀ results, (search_similar env query top_k filter w).1 = inr results →
     length results = length ms).
Proof.
  intros Hemb Hq. rewrite search_similar_unfold; simpl. rewrite Hemb. simpl.
  rewrite Hq. simpl. split; [split|].
  - intros [results Hres]. apply format_results_inr in Hres as (rs & _ & Hall).
    clear -Hall. induction Hall as [|m r ms rs Hm _ IH]; constructor; [|done].
    apply formattable_spec. eauto.
  - intros Hall. destruct (format_results_all_formattable env ms [] Hall)
      as (rs & -> & _). eauto.
  - intros results Hres. apply format_results_inr in Hres as (rs & -> & Hall).
    simpl. by rewrite (Forall2_length _ _ _ Hall).
Qed.

(** * The answer path: further properties *)

Lemma chunk_blocks_missing_text env chunks i chunk :
  chunks !! i = Some chunk →
  chunk_metadata chunk !! "text" = None →
  ∀ k, chunk_blocks env k chunks = inl (KeyError "text").
Proof.
  revert i. induction chunks as [|c chunks IH]; intros i Hi Htext k; [done|].
  simpl. unfold chunk_text_of at 1.
  destruct i as [|i]; simpl in Hi.
  - injection Hi as ->. by rewrite Htext.
  - destruct (chunk_metadata c !! "text") as [[]|]; try done;
      by rewrite (IH i Hi Htext).
Qed.


(** A chunk without text.  If any chunk handed to
    [generate_answer_from_chunks] has no ["text"] in its metadata, the call
    raises KeyError for that key while it builds the context: no completion
    is requested and the world is left as it was. *)
Theorem missing_chunk_text_raises_before_completion (env : Env)
    (query : string) (chunks : list ScoredChunk) (max_tokens : Z) (w : World)
    (i : nat) (chunk : ScoredChunk) :
  chunks !! i = Some chunk →
  chunk_metadata chunk !! "text" = None →
  generate_answer_from_chunks env query chunks max_tokens w =
    (inl (KeyError "text"), w).
Proof.
  intros Hi Htext. unfold generate_answer_from_chunks, log_and_reraise, bind, lift.
  by rewrite (chunk_blocks_missing_text env chunks i chunk Hi Htext 0).
Qed.


(** * Indexing, then searching *)

Lemma format_results_Forall2 env ms rs acc :
  Forall2 (λ m r, format_match env m = inr r) ms rs →
  format_results env ms acc = inr (acc ++ rs).
Proof.
  intros Hall. revert acc. induction Hall as [|m r ms rs Hm _ IH]; intros acc.
  { by rewrite app_nil_r. }
  simpl. rewrite Hm, IH. by rewrite <-app_assoc.
Qed.

(** The index a run leaves, started on an empty index, holds nothing but
    records of the document. *)
Lemma fresh_index_holds_document_records env nodes pdf_id w0 res w1 id r :
  index w0 = ∅ →
  process_nodes_and_store env nodes pdf_id w0 = (res, w1) →
  index w1 !! id = Some r →
  ∃ n c, made_at env pdf_id nodes n c r.
Proof.
  intros Hempty Hrun Hr.
  destruct (process_nodes_and_store_facts env pdf_id nodes w0 res w1 Hrun)
    as (evs & k & Hf & _).
  rewrite (wf_index _ _ _ Hf), Hempty in Hr.
  apply replay_lookup_inv in Hr as [Hr|Hr]; [by rewrite lookup_empty in Hr|].
  by eapply process_batches_made; [exact Hrun|apply (wf_trace _ _ _ Hf)|].
Qed.

(** Write, then read.  Index a document into an empty index (the run may
    even have been cut short by a failure) and search it: if the embedding
    and the query succeed and every match of the reply carries the metadata
    of a record of the index, then, [json.loads] giving back what
    [json.dumps] printed, the search returns, one result per match and in
    their order, and every result names the document, a chunk index, the
    page_num and image_path of the chunk's node (the empty string where it
    has none) and the chunk itself as content. *)
Theorem indexed_document_is_searchable (env : Env) (nodes : list DocumentNode)
    (pdf_id : string) (w0 w1 : World) (res : exn + unit)
    (query : string) (top_k : Z) (filter : option (gmap string pyval))
    (emb : list float) (ms : list Match) :
  (∀ node chunk, node ∈ nodes → chunk ∈ chunks_of env node →
     json_loads env (json_dumps env (node_info (node_page_num node)
                                       (node_image_path node) chunk))
       = Some (node_info (node_page_num node) (node_image_path node) chunk)) →
  index w0 = ∅ →
  process_nodes_and_store env nodes pdf_id w0 = (res, w1) →
  embeddings_create env (trace w1) query Query = inr emb →
  index_query env (trace w1 ++ [EvEmbed query Query (inr emb)]) (index w1)
    emb top_k filter = inr ms →
  (∀ m, m ∈ ms →
     ∃ id r, index w1 !! id = Some r ∧ match_metadata m = vec_metadata r) →
  ∃ results,
    (search_similar env query top_k filter w1).1 = inr results ∧
    Forall2 (λ m result,
       ∃ n c node chunk,
         nodes !! n = Some node ∧ chunks_of env node !! c = Some chunk ∧
         result =
           mkResult (match_score m) (PStr pdf_id) (PInt (Z.of_nat c))
             (from_option PInt (PStr "") (node_page_num node))
             (from_option PStr (PStr "") (node_image_path node))
             (PStr chunk))
      ms results.
Proof.
  intros Hjson Hempty Hrun Hemb Hq Hhonest.
  assert (∀ m, m ∈ ms →
    ∃ result, format_match env m = inr result ∧
      ∃ n c node chunk,
        nodes !! n = Some node ∧ chunks_of env node !! c = Some chunk ∧
        result =
          mkResult (match_score m) (PStr pdf_id) (PInt (Z.of_nat c))
            (from_option PInt (PStr "") (node_page_num node))
            (from_option PStr (PStr "") (node_image_path node))
            (PStr chunk)) as Hfmt.
  { intros m (id & r & Hr & Hmd)%Hhonest.
    destruct (fresh_index_holds_document_records env nodes pdf_id w0 res w1 id r
                Hempty Hrun Hr) as (n & c & node & chunk & Hn & Hc & _ & Hmeta).
    eexists. split; [|by exists n, c, node, chunk].
    destruct m as [score md]. simpl in *. subst md.
    eapply format_match_made; [|done].
    apply Hjson; by eapply list_elem_of_lookup_2. }
  assert (∃ results,
    Forall2 (λ m r, format_match env m = inr r) ms results ∧
    Forall2 (λ m result,
       ∃ n c node chunk,
         nodes !! n = Some node ∧ chunks_of env node !! c = Some chunk ∧
         result =
           mkResult (match_score m) (PStr pdf_id) (PInt (Z.of_nat c))
             (from_option PInt (PStr "") (node_page_num node))
             (from_option PStr (PStr "") (node_image_path node))
             (PStr chunk)) ms results) as (results & Hall & Hgen).
  { clear -Hfmt. induction ms as [|m ms IH].
    { exists []. split; constructor. }
    destruct (Hfmt m) as (result & Hm & Hg); [left|].
    destruct IH as (results & Hall & Hgen).
    { intros m' Hm'. apply Hfmt. by right. }
    exists (result :: results). split; by constructor. }
  exists results. split; [|done].
  rewrite search_similar_unfold; simpl. rewrite Hemb. simpl. rewrite Hq. simpl.
  by rewrite (format_results_Forall2 env ms results []).
Qed.

(** * Provisioning *)

Section ProvisioningFacts.
Context (cenv : ControlEnv).

(** What one call of [create_pinecone_index] does, case by case. *)
Lemma create_pinecone_index_cases name c res c' :
  create_pinecone_index cenv name c = (res, c') →
  ∃ evs,
    control_trace c' = control_trace c ++ evs ∧
    ((∃ e, res = inl e ∧ evs = [EvListIndexes (inl e)] ∧
           index_names c' = index_names c) ∨
     (res = inr tt ∧ name ∈ index_names c ∧
      evs = [EvListIndexes (inr (index_names c))] ∧
      index_names c' = index_names c) ∨
     (∃ e, res = inl e ∧ (name ∉ index_names c) ∧
           evs = [EvListIndexes (inr (index_names c));
                  EvCreateIndex name 1024 "cosine" "gcp-starter" "starter" (Some e)] ∧
           index_names c' = index_names c) ∨
     (res = inr tt ∧ (name ∉ index_names c) ∧
      evs = [EvListIndexes (inr (index_names c));
             EvCreateIndex name 1024 "cosine" "gcp-starter" "starter" None] ∧
      index_names c' = index_names c ++ [name])).
Proof.
  unfold create_pinecone_index.
  destruct (list_indexes_error cenv (control_trace c)) as [e|].
  { intros [= <- <-]. eexists. split; [done|]. left. by exists e. }
  case_decide as Hin.
  { intros [= <- <-]. eexists. split; [done|]. right; left. done. }
  destruct (create_index_error cenv _ name) as [e|]; intros [= <- <-].
  - eexists. split; [simpl; by rewrite <-app_assoc|].
    right; right; left. by exists e.
  - eexists. split; [simpl; by rewrite <-app_assoc|].
    right; right; right. done.
Qed.

(** A call that returned has the name among the indexes. *)
Lemma create_pinecone_index_returned name c c' :
  create_pinecone_index cenv name c = (inr tt, c') → name ∈ index_names c'.
Proof.
  intros (evs & _ & [(e & [=] & _)|[(_ & Hin & _ & ->)|
                      [(e & [=] & _)|(_ & _ & _ & ->)]]])
    %create_pinecone_index_cases; [done|].
  apply elem_of_app. right. left.
Qed.

(** No call drops an index. *)
Lemma create_pinecone_index_keeps name c res c' :
  create_pinecone_index cenv name c = (res, c') →
  index_names c `prefix_of` index_names c'.
Proof.
  intros (evs & _ & [(e & _ & _ & ->)|[(_ & _ & _ & ->)|
                      [(e & _ & _ & _ & ->)|(_ & _ & _ & ->)]]])
    %create_pinecone_index_cases; try done.
  by apply prefix_app_r.
Qed.

(** The calls of a provisioning: successes, then at most one failure, which
    is the exception raised; the handle is never asked for. *)
Lemma create_pinecone_index_steps name c res c' :
  create_pinecone_index cenv name c = (res, c') →
  match res with
  | inr _ =>
      ∃ evs, control_trace c' = control_trace c ++ evs ∧ Forall quiet_step evs
  | inl e =>
      ∃ evs bad,
        control_trace c' = control_trace c ++ evs ++ [bad] ∧
        Forall quiet_step evs ∧
        control_error bad = Some e ∧ is_get_index bad = false ∧
        index_names c' = index_names c
  end.
Proof.
  intros (evs & Htr & [(e & -> & -> & Hn)|[(-> & _ & -> & _)|
                        [(e & -> & _ & -> & Hn)|(-> & _ & -> & _)]]])
    %create_pinecone_index_cases.
  - exists [], (EvListIndexes (inl e)). by repeat split.
  - eexists. split; [done|]. by repeat constructor.
  - exists [EvListIndexes (inr (index_names c))], (EvCreateIndex name 1024 "cosine" "gcp-starter" "starter" (Some e)).
    split; [done|]. split; [by repeat constructor|done].
  - eexists. split; [done|]. by repeat constructor.
Qed.

End ProvisioningFacts.


(** No second creation.  [create_index] is called only after a successful
    listing that does not hold the name, at most once per call, and always
    for dimension 1024 with the cosine metric; so the names of the service
    stay free of duplicates. *)
Theorem create_index_only_when_absent (cenv : ControlEnv) (name : string)
    (c c' : Control) (res : exn + unit) :
  create_pinecone_index cenv name c = (res, c') →
  ∃ evs,
    control_trace c' = control_trace c ++ evs ∧
    (name ∈ index_names c → List.filter is_create evs = []) ∧
    (∀ ev, ev ∈ List.filter is_create evs →
       (name ∉ index_names c) ∧
       List.filter is_create evs = [ev] ∧
       ∃ reply, ev = EvCreateIndex name 1024 "cosine" "gcp-starter" "starter" reply) ∧
    (NoDup (index_names c) → NoDup (index_names c')).
Proof.
  intros (evs & Htr & [(e & -> & -> & ->)|[(-> & Hin & -> & ->)|
                        [(e & -> & Hnin & -> & ->)|(-> & Hnin & -> & ->)]]])
    %create_pinecone_index_cases.
  all: eexists; (split; [exact Htr|]); simpl.
  - split; [done|]. split; [by intros ev ?%elem_of_nil|done].
  - split; [done|]. split; [by intros ev ?%elem_of_nil|done].
  - split; [done|]. split; [|done].
    intros ev ->%list_elem_of_singleton. eauto.
  - split; [done|]. split.
    + intros ev ->%list_elem_of_singleton. eauto.
    + intros Hnd. apply NoDup_app. split; [done|]. split.
      * by intros x Hx ->%list_elem_of_singleton.
      * apply NoDup_singleton.
Qed.

(** Idempotence.  After a call of [create_pinecone_index] that returned, a
    second call for the same name never calls [create_index] and leaves the
    indexes of the service as they are: it lists them and, if the listing
    succeeds, returns. *)
Theorem create_pinecone_index_idempotent (cenv : ControlEnv) (name : string)
    (c c1 c2 : Control) (res : exn + unit) :
  create_pinecone_index cenv name c = (inr tt, c1) →
  create_pinecone_index cenv name c1 = (res, c2) →
  index_names c2 = index_names c1 ∧
  ∃ reply, control_trace c2 = control_trace c1 ++ [EvListIndexes reply] ∧
    match res with
    | inr _ => reply = inr (index_names c1)
    | inl e => reply = inl e
    end.
Proof.
  intros H1 H2.
  pose proof (create_pinecone_index_returned cenv name c c1 H1) as Hin.
  apply create_pinecone_index_cases in H2
    as (evs & Htr & [(e & -> & -> & ->)|[(-> & _ & -> & ->)|
                      [(e & -> & Hnin & _)|(-> & Hnin & _)]]]); try done.
  - split; [done|]. by exists (inl e).
  - split; [done|]. by eexists.
Qed.

(** Construction.  [__init__] raises what its failing call raised and stops
    there.  When a client constructor fails, its exception is raised and
    nothing else is called; when the provisioning fails, its exception is
    raised, the world is the one the provisioning left and the index handle
    is never asked for.  In every raising run the calls before the last all
    succeeded, none of them is the request for the handle, the last call is
    the one that failed, with the exception raised, and the request for the
    handle fails only after clients and provisioning succeeded.  When
    [__init__] returns, every call succeeded, the last is the request for
    the handle of "pdf-embeddings", that index exists, the splitter is
    configured for chunks of 1000 characters with an overlap of 50, and no
    index that existed before is gone. *)
Theorem init_needs_the_index (cenv : ControlEnv) (c c' : Control)
    (res : exn + TextProcessorConfig) :
  init cenv c = (res, c') →
  index_names c `prefix_of` index_names c' ∧
  (∀ e, clients_error cenv (control_trace c) = Some e →
     res = inl e ∧ c' = log_control (EvClients (Some e)) c) ∧
  (∀ e c2,
     clients_error cenv (control_trace c) = None →
     create_pinecone_index cenv "pdf-embeddings"
       (log_control (EvClients None) c) = (inl e, c2) →
     res = inl e ∧ c' = c2 ∧
     ∃ evs, control_trace c' = control_trace c ++ evs ∧
            Forall (λ ev, is_get_index ev = false) evs) ∧
  match res with
  | inr config =>
      "pdf-embeddings" ∈ index_names c' ∧
      cfg_index_name config = "pdf-embeddings" ∧
      cfg_chunk_size config = 1000 ∧ cfg_chunk_overlap config = 50 ∧
      last (cfg_separators config) = Some "" ∧
      ∃ evs,
        control_trace c' =
          control_trace c ++ evs ++ [EvGetIndex "pdf-embeddings" None] ∧
        Forall quiet_step evs
  | inl e =>
      ∃ evs bad,
        control_trace c' = control_trace c ++ evs ++ [bad] ∧
        Forall quiet_step evs ∧
        control_error bad = Some e ∧
        (is_get_index bad = false → index_names c' = index_names c) ∧
        (is_get_index bad = true →
           bad = EvGetIndex "pdf-embeddings" (Some e) ∧
           "pdf-embeddings" ∈ index_names c' ∧
           clients_error cenv (control_trace c) = None ∧
           ∃ c2, create_pinecone_index cenv "pdf-embeddings"
                   (log_control (EvClients None) c) = (inr tt, c2))
  end.
Proof.
  unfold init.
  destruct (clients_error cenv (control_trace c)) as [e|] eqn:Hclients.
  { intros [= <- <-]. split; [done|]. split; [by intros e' [= <-]|].
    split; [done|].
    exists [], (EvClients (Some e)). by repeat split. }
  destruct (create_pinecone_index cenv "pdf-embeddings" _) as [[e|[]] c2] eqn:Hc.
  - intros [= <- <-].
    pose proof (create_pinecone_index_keeps _ _ _ _ _ Hc) as Hpre.
    pose proof (create_pinecone_index_steps _ _ _ _ _ Hc)
      as (evs & bad & Htr & Hq & Hbad & Hget & Hn).
    split; [done|]. split; [done|]. split.
    { intros e' c2' _ [= <- <-]. do 2 (split; [done|]).
      exists (EvClients None :: evs ++ [bad]). split.
      { rewrite Htr. simpl. by rewrite <-app_assoc. }
      constructor; [done|]. apply Forall_app. split; [|by constructor].
      eapply Forall_impl; [exact Hq|]. by intros ev [_ ?]. }
    exists (EvClients None :: evs), bad. split.
    { rewrite Htr. simpl. by rewrite <-!app_assoc. }
    split; [by constructor|]. split; [done|]. split; [done|].
    by rewrite Hget.
  - pose proof (create_pinecone_index_keeps _ _ _ _ _ Hc) as Hpre.
    pose proof (create_pinecone_index_returned _ _ _ _ Hc) as Hin.
    pose proof (create_pinecone_index_steps _ _ _ _ _ Hc) as (evs & Htr & Hq).
    destruct (get_index_error cenv (control_trace c2) _) as [e|]; intros [= <- <-].
    + split; [done|]. split; [done|]. split; [done|].
      exists (EvClients None :: evs), (EvGetIndex "pdf-embeddings" (Some e)).
      split. { simpl. rewrite Htr. simpl. by rewrite <-!app_assoc. }
      split; [by constructor|]. split; [done|]. split; [done|].
      intros _. do 3 (split; [done|]). by exists c2.
    + split; [done|]. split; [done|]. split; [done|].
      do 5 (split; [done|]).
      exists (EvClients None :: evs). split; [|by constructor].
      simpl. rewrite Htr. simpl. by rewrite <-!app_assoc.
Qed.

(** * The question page *)

Section QuestionPageFacts.
Context (penv : PageEnv).

(** One extraction request: what comes back decides everything. *)
Lemma test_extract_pdf_cases folder p ok p' :
  test_extract_pdf penv folder p = (ok, p') →
  ∃ reply,
    posts p' = posts p ++ [EvPost (extract_url penv folder) None reply] ∧
    ((ok = true ∧
      extracted_status p' = <[folder := true]> (extracted_status p) ∧
      notices p' = notices p ∧
      ∃ text d, reply = Response 200 text (Some (PDict d)) ∧
                assoc_get d "status" PNone = PStr "success") ∨
     (ok = false ∧
      extracted_status p' = extracted_status p ∧
      ∃ n, notices p' = notices p ++ [n])).
Proof.
  unfold test_extract_pdf. cbv zeta.
  destruct (requests_post penv (posts p) _ None) as [e|code text json] eqn:Hreply.
  { intros [= <- <-]. eexists. split; [done|]. right. eauto. }
  case_decide as Hcode; [subst code|]; last first.
  { intros [= <- <-]. eexists. split; [done|]. right. eauto. }
  destruct json as [result|]; last first.
  { intros [= <- <-]. eexists. split; [done|]. right. eauto. }
  destruct result as [| | | | |l|d]; simpl;
    try (intros [= <- <-]; eexists; (split; [done|]); right; by eauto).
  destruct (is_success (assoc_get d "status" PNone)) eqn:Hs.
  - intros [= <- <-]. eexists. split; [done|]. left.
    do 3 (split; [done|]). exists text, d. split; [done|].
    destruct (assoc_get d "status" PNone); try done.
    simpl in Hs. by apply bool_decide_eq_true in Hs as ->.
  - intros [= <- <-]. eexists. split; [done|]. right. eauto.
Qed.

(** One search request. *)
Lemma process_query_cases query folder top_k p res p' :
  process_query penv query folder top_k p = (res, p') →
  extracted_status p' = extracted_status p ∧
  ∃ reply,
    posts p' =
      posts p ++ [EvPost (search_url penv folder)
                    (Some (search_body query folder top_k)) reply] ∧
    ((notices p' = notices p ∧
      ∃ text, reply = Response 200 text (Some res)) ∨
     (res = PNone ∧ ∃ n, notices p' = notices p ++ [n])).
Proof.
  unfold process_query. cbv zeta.
  destruct (requests_post penv (posts p) _ _) as [e|code text json] eqn:Hreply.
  { intros [= <- <-]. split; [done|]. eexists. split; [done|]. right. eauto. }
  case_decide as Hcode; [subst code|]; last first.
  { intros [= <- <-]. split; [done|]. eexists. split; [done|]. right. eauto. }
  destruct json as [result|]; intros [= <- <-].
  - split; [done|]. eexists. split; [done|]. left. eauto.
  - split; [done|]. eexists. split; [done|]. right. eauto.
Qed.

End QuestionPageFacts.

(** Extraction is recorded only when it succeeded.  [test_extract_pdf]
    sends exactly one request, without a body, to the folder's
    [test-extract] route.  It returns [True] only for a response with status
    code 200 whose JSON body is an object with [status] equal to
    ["success"]; then it marks the folder as extracted, marks nothing else
    and shows no error.  In every other case it returns [False], leaves
    [extracted_status] as it was and shows exactly one error. *)
Theorem extraction_recorded_only_on_success (penv : PageEnv)
    (folder : string) (p p' : Page) (ok : bool) :
  test_extract_pdf penv folder p = (ok, p') →
  ∃ reply,
    posts p' = posts p ++ [EvPost (extract_url penv folder) None reply] ∧
    if ok then
      extracted_status p' = <[folder := true]> (extracted_status p) ∧
      notices p' = notices p ∧
      ∃ text d, reply = Response 200 text (Some (PDict d)) ∧
                assoc_get d "status" PNone = PStr "success"
    else
      extracted_status p' = extracted_status p ∧
      length (notices p') = S (length (notices p)).
Proof.
  intros (reply & Hposts & [(-> & Hst & Hn & Hr)|(-> & Hst & n & Hn)])
    %test_extract_pdf_cases; exists reply; (split; [done|]).
  - done.
  - split; [done|]. rewrite Hn, length_app. simpl. lia.
Qed.

(** No search without extraction.  Whatever [ask_question] meets, it sends
    a search request only for a folder that is marked as extracted by then:
    either the folder is marked when the call ends, or the call returned
    [None] after a single request, the failed extraction, and showed one
    error.  The marks of all other folders are left alone. *)
Theorem ask_question_searches_only_extracted (penv : PageEnv)
    (query folder : string) (top_k : Z) (p p' : Page) (res : pyval) :
  ask_question penv query folder top_k p = (res, p') →
  (∀ other, other ≠ folder →
     extracted_status p' !! other = extracted_status p !! other) ∧
  (extracted_status p' !! folder = Some true ∨
   (res = PNone ∧
    (∃ reply, posts p' = posts p ++ [EvPost (extract_url penv folder) None reply]) ∧
    extracted_status p' = extracted_status p ∧
    length (notices p') = S (length (notices p)))).
Proof.
  unfold ask_question.
  destruct (extracted_status p !! folder) as [[|]|] eqn:Hst; simpl.
  - intros (Hs & _)%process_query_cases. rewrite Hs. split; [done|]. by left.
  - destruct (test_extract_pdf penv folder p) as [[|] p1] eqn:Hex.
    + apply test_extract_pdf_cases in Hex
        as (reply & _ & [(_ & Hs1 & _)|([=] & _)]).
      intros (Hs & _)%process_query_cases. rewrite Hs, Hs1. split.
      * intros other Hne. by rewrite lookup_insert_ne.
      * left. by rewrite lookup_insert_eq.
    + apply test_extract_pdf_cases in Hex
        as (reply & Hposts & [([=] & _)|(_ & Hs1 & n & Hn)]).
      intros [= <- <-]. rewrite Hs1. split; [done|]. right.
      split; [done|]. split; [by exists reply|]. split; [done|].
      rewrite Hn, length_app. simpl. lia.
  - destruct (test_extract_pdf penv folder p) as [[|] p1] eqn:Hex.
    + apply test_extract_pdf_cases in Hex
        as (reply & _ & [(_ & Hs1 & _)|([=] & _)]).
      intros (Hs & _)%process_query_cases. rewrite Hs, Hs1. split.
      * intros other Hne. by rewrite lookup_insert_ne.
      * left. by rewrite lookup_insert_eq.
    + apply test_extract_pdf_cases in Hex
        as (reply & Hposts & [([=] & _)|(_ & Hs1 & n & Hn)]).
      intros [= <- <-]. rewrite Hs1. split; [done|]. right.
      split; [done|]. split; [by exists reply|]. split; [done|].
      rewrite Hn, length_app. simpl. lia.
Qed.

(** Extraction happens once.  After a call of [ask_question] that returned
    a result, every later question about the same folder sends a single
    request, the search with the new query and [top_k] and the unquoted
    folder name as [pdf_id]: the document is not extracted again. *)
Theorem ask_question_extracts_once (penv : PageEnv)
    (query1 query2 folder : string) (k1 k2 : Z) (p p1 p2 : Page)
    (res1 res2 : pyval) :
  ask_question penv query1 folder k1 p = (res1, p1) →
  res1 ≠ PNone →
  ask_question penv query2 folder k2 p1 = (res2, p2) →
  extracted_status p2 = extracted_status p1 ∧
  ∃ reply,
    posts p2 =
      posts p1 ++ [EvPost (search_url penv folder)
                     (Some (PDict [("query", PStr query2); ("top_k", PInt k2);
                                   ("pdf_id", PStr folder)])) reply].
Proof.
  intros H1 Hres H2.
  assert (extracted_status p1 !! folder = Some true) as Hmark.
  { revert H1. unfold ask_question.
    destruct (extracted_status p !! folder) as [[|]|] eqn:Hst; simpl.
    - intros (Hs & _)%process_query_cases. by rewrite Hs.
    - destruct (test_extract_pdf penv folder p) as [[|] p0] eqn:Hex.
      + apply test_extract_pdf_cases in Hex
          as (reply & _ & [(_ & Hs1 & _)|([=] & _)]).
        intros (Hs & _)%process_query_cases.
        by rewrite Hs, Hs1, lookup_insert_eq.
      + by intros [= <- <-].
    - destruct (test_extract_pdf penv folder p) as [[|] p0] eqn:Hex.
      + apply test_extract_pdf_cases in Hex
          as (reply & _ & [(_ & Hs1 & _)|([=] & _)]).
        intros (Hs & _)%process_query_cases.
        by rewrite Hs, Hs1, lookup_insert_eq.
      + by intros [= <- <-]. }
  revert H2. unfold ask_question. rewrite Hmark. simpl.
  intros (Hs & reply & Hposts & _)%process_query_cases.
  split; [done|]. by exists reply.
Qed.

(** Failures are shown.  [ask_question] shows at most one error per call.
    When it returns a result other than [None], no error was shown and the
    result is the JSON body of a search response with status code 200, the
    last request of the call; when an error was shown, it returns
    [None]. *)
Theorem ask_question_reports_failures (penv : PageEnv)
    (query folder : string) (top_k : Z) (p p' : Page) (res : pyval) :
  ask_question penv query folder top_k p = (res, p') →
  (notices p' = notices p ∨
   (res = PNone ∧ ∃ n, notices p' = notices p ++ [n])) ∧
  (res ≠ PNone →
   notices p' = notices p ∧
   ∃ text,
     last (posts p') =
       Some (EvPost (search_url penv folder)
               (Some (search_body query folder top_k))
               (Response 200 text (Some res)))).
Proof.
  assert (∀ p0 p0', process_query penv query folder top_k p0 = (res, p0') →
            (notices p0' = notices p0 ∨
             (res = PNone ∧ ∃ n, notices p0' = notices p0 ++ [n])) ∧
            (res ≠ PNone →
             notices p0' = notices p0 ∧
             ∃ text,
               last (posts p0') =
                 Some (EvPost (search_url penv folder)
                         (Some (search_body query folder top_k))
                         (Response 200 text (Some res))))) as Hsearch.
  { intros p0 p0' (_ & reply & Hposts & [(Hn & text & ->)|(-> & n & Hn)])
      %process_query_cases.
    - split; [by left|]. intros _. split; [done|]. exists text.
      by rewrite Hposts, last_snoc.
    - split; [right; eauto|]. done. }
  unfold ask_question.
  destruct (negb (default false (extracted_status p !! folder))).
  - destruct (test_extract_pdf penv folder p) as [[|] p1] eqn:Hex.
    + apply test_extract_pdf_cases in Hex
        as (reply & _ & [(_ & _ & Hn1 & _)|([=] & _)]).
      intros Hq. apply Hsearch in Hq. by rewrite Hn1 in Hq.
    + apply test_extract_pdf_cases in Hex
        as (reply & _ & [([=] & _)|(_ & _ & n & Hn)]).
      intros [= <- <-]. split; [right; eauto|]. done.
  - apply Hsearch.
Qed.

(** * The notes page: query normalisation *)

Lemma py_split_cons c rest :
  py_split (String c rest) =
    if py_isspace c then py_split rest
    else if word_ends rest then String c "" :: py_split rest
    else match py_split rest with
         | word :: words => String c word :: words
         | [] => [String c ""]
         end.
Proof. done. Qed.

Lemma py_split_words s : Forall (λ w, is_word w = true) (py_split s).
Proof.
  induction s as [|c rest IH]; [constructor|].
  simpl. destruct (py_isspace c) eqn:Hc; [done|].
  destruct (word_ends rest).
  { constructor; [simpl; by rewrite Hc|done]. }
  destruct (py_split rest) as [|word words].
  { constructor; [simpl; by rewrite Hc|constructor]. }
  apply Forall_cons in IH as [Hw Hws]. constructor; [|done].
  simpl. rewrite Hc. simpl. by destruct word.
Qed.

(** Splitting a word followed by a blank and more text. *)
Lemma py_split_word_blank w rest :
  is_word w = true →
  py_split (w +:+ " " +:+ rest) = w :: py_split rest.
Proof.
  destruct w as [|c w]; [done|]. simpl is_word. revert c.
  induction w as [|c' w IH]; intros c [Hc Hw]%andb_true_iff.
  - apply negb_true_iff in Hc. simpl. by rewrite Hc.
  - apply negb_true_iff in Hc.
    pose proof Hw as [Hc' _]%andb_true_iff. apply negb_true_iff in Hc'.
    specialize (IH c' Hw).
    change (String c (String c' w) +:+ " " +:+ rest)
      with (String c (String c' w +:+ " " +:+ rest)).
    rewrite py_split_cons, Hc, IH.
    change (String c' w +:+ " " +:+ rest)
      with (String c' (w +:+ " " +:+ rest)).
    cbn [word_ends]. by rewrite Hc'.
Qed.

Lemma py_split_word w : is_word w = true → py_split w = [w].
Proof.
  destruct w as [|c w]; [done|]. simpl is_word. revert c.
  induction w as [|c' w IH]; intros c [Hc Hw]%andb_true_iff.
  - apply negb_true_iff in Hc. simpl. by rewrite Hc.
  - apply negb_true_iff in Hc.
    pose proof Hw as [Hc' _]%andb_true_iff. apply negb_true_iff in Hc'.
    specialize (IH c' Hw).
    rewrite py_split_cons, Hc, IH. cbn [word_ends]. by rewrite Hc'.
Qed.

(** [split] undoes [join] on words. *)
Lemma py_split_join words :
  Forall (λ w, is_word w = true) words →
  py_split (str_join " " words) = words.
Proof.
  induction 1 as [|w words Hw Hws IH]; [done|].
  destruct words as [|w' words'].
  - by apply py_split_word.
  - change (str_join " " (w :: w' :: words'))
      with (w +:+ " " +:+ str_join " " (w' :: words')).
    by rewrite py_split_word_blank, IH.
Qed.






(** Normalisation is idempotent: a normalised query is its own normal
    form, and it has the words of the query it came from. *)
Theorem normalize_query_idempotent (query : string) :
  normalize_query (normalize_query query) = normalize_query query ∧
  py_split (normalize_query query) = py_split query.
Proof.
  assert (py_split (normalize_query query) = py_split query) as Hsplit.
  { apply py_split_join, py_split_words. }
  split; [|done]. unfold normalize_query at 1. by rewrite Hsplit.
Qed.



(** * Further properties on concrete inputs *)

Lemma upsert_batches_within_limit_demo :
  ∃ evs,
    trace (process_nodes_and_store Steady.env [Steady.node_abc; Demo.node_b]
             "doc" Demo.empty_world).2 = trace Demo.empty_world ++ evs ∧
    Forall (λ batch, 0 < length batch ≤ 50) (upsert_batches evs).
Proof.
  apply (upsert_batches_within_limit Steady.env [Steady.node_abc; Demo.node_b]
           "doc" Demo.empty_world).
Defined.

Lemma cooldown_follows_full_batches_demo :
  ∃ evs,
    trace (process_nodes_and_store Steady.env [Steady.node_abc; Demo.node_b]
             "doc" Demo.empty_world).2 = trace Demo.empty_world ++ evs ∧
    (∀ i vectors, evs !! i = Some (EvUpsert vectors Accepted) →
       length vectors = 50 → evs !! S i = Some EvSleep) ∧
    (∀ i, evs !! i = Some EvSleep →
       ∃ j vectors, i = S j ∧ evs !! j = Some (EvUpsert vectors Accepted) ∧
                    length vectors = 50).
Proof.
  apply (cooldown_follows_full_batches Steady.env
           [Steady.node_abc; Demo.node_b] "doc" Demo.empty_world).
Defined.

Lemma chunks_embedded_once_in_order_demo :
  let nodes := [Steady.node_abc; Demo.node_b] in
  ∃ evs k,
    trace (process_nodes_and_store Steady.env nodes "doc" Demo.empty_world).2
      = trace Demo.empty_world ++ evs ∧
    Forall write_event evs ∧
    embedded_texts evs = take k (document_chunks Steady.env nodes) ∧
    match (process_nodes_and_store Steady.env nodes "doc" Demo.empty_world).1 with
    | inr _ => embedded_texts evs = document_chunks Steady.env nodes
    | inl _ => True
    end.
Proof.
  intros nodes.
  apply (chunks_embedded_once_in_order Steady.env nodes "doc" Demo.empty_world).
Defined.

Lemma indexing_leaves_other_documents_alone_demo :
  let nodes := [Demo.node_a; Demo.node_bang] in
  let run := process_nodes_and_store Demo.quiet nodes "doc" Steady.world_with_other in
  run.1 = inl Demo.unavailable ∧
  (∀ id, ¬ is_site_id Demo.quiet "doc" nodes id →
     index run.2 !! id = index Steady.world_with_other !! id) ∧
  (∀ other n c, other ≠ "doc" →
     index run.2 !! vector_id other n c =
     index Steady.world_with_other !! vector_id other n c).
Proof.
  intros nodes run. split; [vm_compute; reflexivity|].
  apply (indexing_leaves_other_documents_alone Demo.quiet nodes "doc"
           Steady.world_with_other run.2 run.1).
  apply surjective_pairing.
Defined.

Lemma indexing_never_deletes_demo :
  let run :=
    process_nodes_and_store Demo.quiet [Demo.node_a; Demo.node_bang] "doc"
      Steady.world_with_other in
  is_Some (index run.2 !! "other_node0_chunk0").
Proof.
  intros run.
  apply (indexing_never_deletes Demo.quiet [Demo.node_a; Demo.node_bang] "doc"
           Steady.world_with_other run.2 run.1 "other_node0_chunk0").
  - apply surjective_pairing.
  - vm_compute. eauto.
Defined.


Lemma single_node_batches_demo :
  let R := length (chunks_of Steady.env Steady.node_abc) in
  ∃ w' evs,
    process_nodes_and_store Steady.env [Steady.node_abc] "doc" Demo.empty_world
      = (inr tt, w') ∧
    trace w' = trace Demo.empty_world ++ evs ∧
    length (embedded_texts evs) = R ∧
    length <$> upsert_batches evs =
      replicate (R / batch_size) batch_size ++
      (if decide (R `mod` batch_size = 0) then [] else [R `mod` batch_size]) ∧
    length (upsert_batches evs) = ceil_div R batch_size.
Proof.
  apply (single_node_batches Steady.env "doc").
  - intros tr text. by exists [1%float].
  - intros tr vectors. reflexivity.
Defined.

Lemma search_similar_is_read_only_demo :
  let env := Demo.env "!" None [Demo.good_match; Demo.null_match] in
  let run := search_similar env "what is X?" 5 None Steady.world_with_other in
  index run.2 = index Steady.world_with_other ∧
  ∃ evs,
    trace run.2 = trace Steady.world_with_other ++ evs ∧
    length evs ≤ 2 ∧ Forall read_event evs.
Proof.
  intros env run.
  apply (search_similar_is_read_only env "what is X?" 5 None
           Steady.world_with_other).
Defined.

Lemma search_similar_reraises_remote_failures_demo :
  search_similar Demo.quiet "!" 5 None Demo.empty_world =
    (inl Demo.unavailable,
     log_event (EvEmbed "!" Query (inl Demo.unavailable)) Demo.empty_world) ∧
  search_similar Demo.quiet "what is X?" 0 None Demo.empty_world =
    (inl (RemoteError "top_k must be positive"),
     log_event (EvQuery [1%float] 0 None (inl (RemoteError "top_k must be positive")))
       (log_event (EvEmbed "what is X?" Query (inr [1%float])) Demo.empty_world)).
Proof.
  split.
  - apply (proj1 (search_similar_reraises_remote_failures Demo.quiet "!" 5 None
                    Demo.empty_world Demo.unavailable)).
    reflexivity.
  - apply (proj2 (search_similar_reraises_remote_failures Demo.quiet
                    "what is X?" 0 None Demo.empty_world
                    (RemoteError "top_k must be positive")) [1%float]);
      reflexivity.
Defined.

Lemma non_string_text_fails_search_demo :
  let m := mkMatch 0.5 (Demo.metadata_with (PInt 3)) in
  let env := Demo.env "!" None [Demo.good_match; m] in
  format_match env m = inl TypeError ∧
  ∃ e, (search_similar env "what is X?" 5 None Demo.empty_world).1 = inl e.
Proof.
  intros m env.
  apply (non_string_text_fails_search env "what is X?" 5 None Demo.empty_world
           [1%float] [Demo.good_match; m] m (PInt 3)).
  - reflexivity.
  - reflexivity.
  - right. left.
  - reflexivity.
  - discriminate.
Defined.

Lemma missing_text_gives_empty_fields_demo :
  let m := mkMatch 0.5 (<["pdf_id" := PStr "doc1"]> ∅) in
  let env := Demo.env "!" None [Demo.good_match; m] in
  ∃ results w',
    search_similar env "what is X?" 5 None Demo.empty_world = (inr results, w') ∧
    results !! 1 =
      Some (mkResult 0.5 (PStr "doc1") PNone (PStr "") (PStr "") (PStr "")).
Proof.
  intros m env.
  run_search (search_similar env "what is X?" 5 None Demo.empty_world)
    ltac:(fun rs w =>
      exists rs, w; split; [vm_compute; reflexivity|];
      apply (missing_text_gives_empty_fields env "what is X?" 5 None
               Demo.empty_world w rs [1%float] [Demo.good_match; m] 1 m));
    vm_compute; reflexivity.
Defined.

Lemma search_returns_iff_all_formattable_demo :
  let env := Demo.env "!" None [Demo.good_match; Demo.malformed_match] in
  let run := search_similar env "what is X?" 5 None Demo.empty_world in
  ((∃ results, run.1 = inr results) ↔
   Forall (λ m, formattable env m = true)
     [Demo.good_match; Demo.malformed_match]) ∧
  (∀ results, run.1 = inr results → length results = 2).
Proof.
  intros env run.
  apply (search_returns_iff_all_formattable env "what is X?" 5 None
           Demo.empty_world [1%float] [Demo.good_match; Demo.malformed_match]);
    reflexivity.
Defined.

Lemma missing_chunk_text_raises_before_completion_demo :
  let chunks :=
    [mkChunk 0.75 (Demo.metadata_with (PStr "alpha"));
     mkChunk 0.5 (<["pdf_id" := PStr "doc1"]> ∅)] in
  generate_answer_from_chunks Steady.env "what is X?" chunks 1000
    Demo.empty_world = (inl (KeyError "text"), Demo.empty_world).
Proof.
  intros chunks.
  apply (missing_chunk_text_raises_before_completion Steady.env "what is X?"
           chunks 1000 Demo.empty_world 1
           (mkChunk 0.5 (<["pdf_id" := PStr "doc1"]> ∅)));
    reflexivity.
Defined.


Lemma steady_index_is_honest idx top_k m :
  m ∈ take (Z.to_nat top_k) (Steady.match_of <$> map_to_list idx) →
  ∃ id r, idx !! id = Some r ∧ match_metadata m = vec_metadata r.
Proof.
  intros ([id r] & -> & Hin)%subseteq_take%list_elem_of_fmap.
  exists id, r. split; [by apply elem_of_map_to_list|done].
Qed.

Lemma indexed_document_is_searchable_demo :
  let nodes := [Demo.node_a; Demo.node_b] in
  let w1 := (process_nodes_and_store Steady.env nodes "doc" Demo.empty_world).2 in
  ∃ results,
    (search_similar Steady.env "what is X?" 5 None w1).1 = inr results ∧
    Forall2 (λ m result,
       ∃ n c node chunk,
         nodes !! n = Some node ∧ chunks_of Steady.env node !! c = Some chunk ∧
         result =
           mkResult (match_score m) (PStr "doc") (PInt (Z.of_nat c))
             (from_option PInt (PStr "") (node_page_num node))
             (from_option PStr (PStr "") (node_image_path node))
             (PStr chunk))
      (take (Z.to_nat 5) (Steady.match_of <$> map_to_list (index w1))) results.
Proof.
  intros nodes w1.
  apply (indexed_document_is_searchable Steady.env nodes "doc" Demo.empty_world
           w1 (process_nodes_and_store Steady.env nodes "doc" Demo.empty_world).1
           "what is X?" 5 None [1%float]).
  - intros node chunk Hnode Hchunk.
    apply elem_of_cons in Hnode as [->|Hnode];
      [|apply list_elem_of_singleton in Hnode as ->];
      apply list_elem_of_singleton in Hchunk as ->; reflexivity.
  - reflexivity.
  - apply surjective_pairing.
  - reflexivity.
  - reflexivity.
  - intros m. exact (steady_index_is_honest (index w1) 5 m).
Defined.

(** ** Provisioning on concrete control planes *)


Lemma create_index_only_when_absent_demo :
  let c := mkControl [] ["notes"] in
  let run := create_pinecone_index no_quota "pdf-embeddings" c in
  ∃ evs,
    control_trace run.2 = control_trace c ++ evs ∧
    ("pdf-embeddings" ∈ index_names c → List.filter is_create evs = []) ∧
    (∀ ev, ev ∈ List.filter is_create evs →
       ("pdf-embeddings" ∉ index_names c) ∧
       List.filter is_create evs = [ev] ∧
       ∃ reply, ev = EvCreateIndex "pdf-embeddings" 1024 "cosine"
                       "gcp-starter" "starter" reply) ∧
    (NoDup (index_names c) → NoDup (index_names run.2)).
Proof.
  intros c run.
  exact (create_index_only_when_absent no_quota "pdf-embeddings" c run.2 run.1
           (surjective_pairing run)).
Defined.

Lemma create_pinecone_index_idempotent_demo :
  let c := mkControl [] ["notes"] in
  let c1 := (create_pinecone_index calm "pdf-embeddings" c).2 in
  let run := create_pinecone_index calm "pdf-embeddings" c1 in
  index_names run.2 = index_names c1 ∧
  ∃ reply, control_trace run.2 = control_trace c1 ++ [EvListIndexes reply] ∧
    match run.1 with
    | inr _ => reply = inr (index_names c1)
    | inl e => reply = inl e
    end.
Proof.
  intros c c1 run.
  apply (create_pinecone_index_idempotent calm "pdf-embeddings" c c1 run.2 run.1).
  - vm_compute. reflexivity.
  - apply surjective_pairing.
Defined.

Lemma init_needs_the_index_demo :
  let c := mkControl [] ["notes"] in
  let run := init no_quota c in
  index_names c `prefix_of` index_names run.2 ∧
  (∀ e, clients_error no_quota (control_trace c) = Some e →
     run.1 = inl e ∧ run.2 = log_control (EvClients (Some e)) c) ∧
  (∀ e c2,
     clients_error no_quota (control_trace c) = None →
     create_pinecone_index no_quota "pdf-embeddings"
       (log_control (EvClients None) c) = (inl e, c2) →
     run.1 = inl e ∧ run.2 = c2 ∧
     ∃ evs, control_trace run.2 = control_trace c ++ evs ∧
            Forall (λ ev, is_get_index ev = false) evs) ∧
  match run.1 with
  | inr config =>
      "pdf-embeddings" ∈ index_names run.2 ∧
      cfg_index_name config = "pdf-embeddings" ∧
      cfg_chunk_size config = 1000 ∧ cfg_chunk_overlap config = 50 ∧
      last (cfg_separators config) = Some "" ∧
      ∃ evs,
        control_trace run.2 =
          control_trace c ++ evs ++ [EvGetIndex "pdf-embeddings" None] ∧
        Forall quiet_step evs
  | inl e =>
      ∃ evs bad,
        control_trace run.2 = control_trace c ++ evs ++ [bad] ∧
        Forall quiet_step evs ∧
        control_error bad = Some e ∧
        (is_get_index bad = false → index_names run.2 = index_names c) ∧
        (is_get_index bad = true →
           bad = EvGetIndex "pdf-embeddings" (Some e) ∧
           "pdf-embeddings" ∈ index_names run.2 ∧
           clients_error no_quota (control_trace c) = None ∧
           ∃ c2, create_pinecone_index no_quota "pdf-embeddings"
                   (log_control (EvClients None) c) = (inr tt, c2))
  end.
Proof.
  intros c run.
  exact (init_needs_the_index no_quota c run.2 run.1 (surjective_pairing run)).
Defined.

(** ** The question page on concrete servers *)

Lemma extraction_recorded_only_on_success_demo :
  let run := test_extract_pdf helpful "report" fresh_page in
  ∃ reply,
    posts run.2 =
      posts fresh_page ++ [EvPost (extract_url helpful "report") None reply] ∧
    if run.1 then
      extracted_status run.2 = <["report" := true]> (extracted_status fresh_page) ∧
      notices run.2 = notices fresh_page ∧
      ∃ text d, reply = Response 200 text (Some (PDict d)) ∧
                assoc_get d "status" PNone = PStr "success"
    else
      extracted_status run.2 = extracted_status fresh_page ∧
      length (notices run.2) = S (length (notices fresh_page)).
Proof.
  intros run.
  exact (extraction_recorded_only_on_success helpful "report" fresh_page
           run.2 run.1 (surjective_pairing run)).
Defined.

Lemma ask_question_searches_only_extracted_demo :
  let run := ask_question down "what?" "report" 5 fresh_page in
  (∀ other, other ≠ "report" →
     extracted_status run.2 !! other = extracted_status fresh_page !! other) ∧
  (extracted_status run.2 !! "report" = Some true ∨
   (run.1 = PNone ∧
    (∃ reply, posts run.2 =
                posts fresh_page ++ [EvPost (extract_url down "report") None reply]) ∧
    extracted_status run.2 = extracted_status fresh_page ∧
    length (notices run.2) = S (length (notices fresh_page)))).
Proof.
  intros run.
  exact (ask_question_searches_only_extracted down "what?" "report" 5
           fresh_page run.2 run.1 (surjective_pairing run)).
Defined.

Lemma ask_question_extracts_once_demo :
  let first := ask_question helpful "what?" "report" 5 fresh_page in
  let second := ask_question helpful "why?" "report" 3 first.2 in
  extracted_status second.2 = extracted_status first.2 ∧
  ∃ reply,
    posts second.2 =
      posts first.2 ++ [EvPost (search_url helpful "report")
                          (Some (PDict [("query", PStr "why?"); ("top_k", PInt 3);
                                        ("pdf_id", PStr "report")])) reply].
Proof.
  intros first second.
  apply (ask_question_extracts_once helpful "what?" "why?" "report" 5 3
           fresh_page first.2 second.2 first.1 second.1).
  - apply surjective_pairing.
  - vm_compute. discriminate.
  - apply surjective_pairing.
Defined.

Lemma ask_question_reports_failures_demo :
  let run := ask_question helpful "what?" "report" 5 fresh_page in
  (notices run.2 = notices fresh_page ∨
   (run.1 = PNone ∧ ∃ n, notices run.2 = notices fresh_page ++ [n])) ∧
  (run.1 ≠ PNone →
   notices run.2 = notices fresh_page ∧
   ∃ text,
     last (posts run.2) =
       Some (EvPost (search_url helpful "report")
               (Some (search_body "what?" "report" 5))
               (Response 200 text (Some run.1)))).
Proof.
  intros run.
  exact (ask_question_reports_failures helpful "what?" "report" 5
           fresh_page run.2 run.1 (surjective_pairing run)).
Defined.

(** ** Normalisation on a concrete query *)

Example normalize_query_demo :
  normalize_query ("  what   is" +:+ String (ascii_of_nat 9) (nl +:+ "this ? "))
    = "what is this ?".
Proof. vm_compute. reflexivity. Qed.
